(** * Mesh Terminal relay: route handlers over the in-memory relay state

    The development embeds the four API route handlers of the relay
    ([/api/user], [/api/connect], [/api/message], [/api/events]) as state
    transformers over an explicit relay state, and proves the properties
    the design document states about them.

    The handlers are translated from their TypeScript source.  The module
    they import, [@/lib/server-state], and the type declarations of
    [@/lib/protocol] are not part of the sources at hand; every definition
    standing for them is marked [Modelled from the spec:]. *)

From Stdlib Require Import String Ascii ZArith NArith Lia.
From stdpp Require Import gmap list sets fin_maps.

Local Open Scope Z_scope.

(** ** JavaScript strings

    A JavaScript string is a sequence of UTF-16 code units; [length],
    [slice] and the default sort order all count and compare code units. *)

Module Js.

Abbreviation jsstring := (list N).

(** An ASCII literal as a JavaScript string. *)
Definition lit (s : string) : jsstring :=
  N_of_ascii <$> list_ascii_of_string s.

(** [WhiteSpace] and [LineTerminator] code units of ECMAScript, the ones
    [String.prototype.trim] strips. *)
Definition is_white_space (c : N) : bool :=
  ((9 <=? c) && (c <=? 13) ||
   (c =? 32) || (c =? 160) || (c =? 5760) ||
   (8192 <=? c) && (c <=? 8202) ||
   (c =? 8232) || (c =? 8233) || (c =? 8239) || (c =? 8287) ||
   (c =? 12288) || (c =? 65279))%N.

Fixpoint trimStart (s : jsstring) : jsstring :=
  match s with
  | c :: s' => if is_white_space c then trimStart s' else s
  | [] => []
  end.

Definition trimEnd (s : jsstring) : jsstring :=
  reverse (trimStart (reverse s)).

(** [s.trim()] *)
Definition trim (s : jsstring) : jsstring := trimEnd (trimStart s).

(** [s.slice(0, n)] for a literal [n >= 0]. *)
Definition slice0 (n : nat) (s : jsstring) : jsstring := take n s.

(** Values a parsed JSON body property can have; [typeof v === "string"]
    holds of [JsString] alone. *)
Inductive JsValue :=
| JsUndefined
| JsNull
| JsBool (b : bool)
| JsNumber (z : Z)
| JsString (s : jsstring).

(** [typeof v === "string" ? v : null] *)
Definition string_or_null (v : JsValue) : option jsstring :=
  match v with
  | JsString s => Some s
  | _ => None
  end.

(** [!v] for [v : string | null]: [null] and the empty string are falsy. *)
Definition falsy (v : option jsstring) : bool :=
  match v with
  | None | Some [] => true
  | Some (_ :: _) => false
  end.

(** Code-unit order of two strings, the order of [Array.prototype.sort]
    without a comparator: [lex_leb a b] when [a] sorts before or with [b]. *)
Fixpoint lex_leb (a b : jsstring) : bool :=
  match a, b with
  | [], _ => true
  | _ :: _, [] => false
  | x :: a', y :: b' =>
      if (x <? y)%N then true
      else if (y <? x)%N then false
      else lex_leb a' b'
  end.

(** Surrogate code units and well-formed UTF-16: every high surrogate is
    followed by a low one and no low surrogate stands alone. *)
Definition is_high_surrogate (c : N) : bool := ((55296 <=? c) && (c <=? 56319))%N.
Definition is_low_surrogate (c : N) : bool := ((56320 <=? c) && (c <=? 57343))%N.

Fixpoint isWellFormed (s : jsstring) : bool :=
  match s with
  | [] => true
  | c :: s' =>
      if is_high_surrogate c then
        match s' with
        | d :: s'' => is_low_surrogate d && isWellFormed s''
        | [] => false
        end
      else if is_low_surrogate c then false
      else isWellFormed s'
  end.

End Js.

Import Js.

(** ** Protocol records

    The type declarations of [@/lib/protocol] are absent. The records
    follow the data model of the design (Identity, Message, Conversation,
    Event) under the property names the client code reads
    ([participant.uid], [participant.name], [message.from], [message.kind],
    [message.timestamp], [conversation.updatedAt], [event.payload], ...). *)

(** Modelled from the spec: the Identity record of the absent
    [@/lib/protocol] ("[{ id: opaque string, displayName: string }]"). *)
Record User := mkUser {
  uid : jsstring;
  name : jsstring
}.

(** Modelled from the spec: the message kinds of the absent
    [@/lib/protocol] (kind: message | system). *)
Inductive MessageKind := KindMessage | KindSystem.

(** Modelled from the spec: the Message record of the absent
    [@/lib/protocol] ("[{ id, conversationId, from: identity-id or absent,
    text, kind, timestamp }]"); the opaque unique id is a serial number. *)
Record Message := mkMessage {
  msg_id : N;
  msg_conversationId : jsstring;
  msg_from : option jsstring;
  msg_text : jsstring;
  msg_kind : MessageKind;
  msg_timestamp : Z
}.

(** Modelled from the spec: the Conversation record of the absent
    [@/lib/protocol] ("[{ id, participants: mapping identity-id →
    Identity, messages: ordered sequence of Message, updatedAt }]"). *)
Record Conversation := mkConversation {
  conv_id : jsstring;
  participants : gmap jsstring User;
  messages : list Message;
  updatedAt : Z
}.

(** Modelled from the spec: the event union of the absent [@/lib/protocol]
    (hello { identityId }, conversation { conversation }, message
    { conversationId, message }, user { identityId, name }, system
    { text }), with the tags the client code switches on. *)
Inductive ServerEvent :=
| EvHello (u : jsstring)
| EvConversation (payload : Conversation)
| EvMessage (conversationId : jsstring) (message : Message)
| EvUser (u : jsstring) (n : jsstring)
| EvSystem (text : jsstring).

#[global] Instance User_eq_dec : EqDecision User.
Proof. solve_decision. Defined.
#[global] Instance MessageKind_eq_dec : EqDecision MessageKind.
Proof. solve_decision. Defined.
#[global] Instance Message_eq_dec : EqDecision Message.
Proof. solve_decision. Defined.
#[global] Instance Conversation_eq_dec : EqDecision Conversation.
Proof. solve_decision. Defined.
#[global] Instance ServerEvent_eq_dec : EqDecision ServerEvent.
Proof. solve_decision. Defined.

(** What a live feed's stream controller has queued: an encoded event
    ([toEventChunk], which serialises the event when it is enqueued) or a
    keep-alive comment. *)
Inductive Chunk :=
| Data (e : ServerEvent)
| Ping.

(** Modelled from the spec: the caller-facing error kinds ("Kinds:
    [InvalidArgument], [NotFound], [Internal]"). *)
Inductive ErrorKind := InvalidArgument | NotFound | Internal.

#[global] Instance ErrorKind_eq_dec : EqDecision ErrorKind.
Proof. solve_decision. Defined.

(** Modelled from the spec: an exception of the absent
    [@/lib/server-state], an [Error] instance with its message, tagged
    with the kind the design gives the failure. *)
Record StoreError := mkStoreError {
  err_kind : ErrorKind;
  err_message : string
}.

(** A call into the relay state module returns or throws. *)
Inductive Result (A : Type) :=
| Return (a : A)
| Throw (e : StoreError).
Arguments Return {A} a.
Arguments Throw {A} e.

(** ** Relay state *)

(** The stream controller of one live feed. *)
Record Feed := mkFeed {
  feed_uid : jsstring;
  feed_queue : list Chunk;
  feed_closed : bool
}.

(** Modelled from the spec: the module state of the absent
    [@/lib/server-state]: the identity registry, the conversation store
    and the subscription registry ("maps an identity to its set of live
    observers"). An observer is named by the handle of its stream; [feeds]
    holds the stream controllers the handlers create, [next_message] the
    next message id. *)
Record State := mkState {
  users : gmap jsstring User;
  conversations : gmap jsstring Conversation;
  subscribers : gmap jsstring (gset nat);
  feeds : gmap nat Feed;
  next_message : N
}.

Definition initial_state : State :=
  {| users := ∅; conversations := ∅; subscribers := ∅; feeds := ∅;
     next_message := 0%N |}.

Definition with_users (f : gmap jsstring User → gmap jsstring User) (st : State) : State :=
  {| users := f (users st); conversations := conversations st;
     subscribers := subscribers st; feeds := feeds st;
     next_message := next_message st |}.

Definition with_conversations
    (f : gmap jsstring Conversation → gmap jsstring Conversation) (st : State) : State :=
  {| users := users st; conversations := f (conversations st);
     subscribers := subscribers st; feeds := feeds st;
     next_message := next_message st |}.

Definition with_subscribers
    (f : gmap jsstring (gset nat) → gmap jsstring (gset nat)) (st : State) : State :=
  {| users := users st; conversations := conversations st;
     subscribers := f (subscribers st); feeds := feeds st;
     next_message := next_message st |}.

Definition with_feeds (f : gmap nat Feed → gmap nat Feed) (st : State) : State :=
  {| users := users st; conversations := conversations st;
     subscribers := subscribers st; feeds := f (feeds st);
     next_message := next_message st |}.

Definition with_next_message (n : N) (st : State) : State :=
  {| users := users st; conversations := conversations st;
     subscribers := subscribers st; feeds := feeds st;
     next_message := n |}.

(** [controller.enqueue(chunk)]: raises on a closed controller, otherwise
    appends to the stream's queue. *)
Definition enqueue (c : Chunk) (f : Feed) : option Feed :=
  if feed_closed f then None
  else Some {| feed_uid := feed_uid f; feed_queue := feed_queue f ++ [c];
               feed_closed := false |}.

(** ** The relay state module [@/lib/server-state] *)

Module ServerState.

(** *** Subscription registry *)

(** The observers registered for an identity, none if it has no entry. *)
Definition subscribers_of (u : jsstring) (st : State) : gset nat :=
  default ∅ (subscribers st !! u).

(** Modelled from the spec: [subscribeToUser] of the absent
    [@/lib/server-state] ("registers a live observer for the identity;
    multiple observers per identity are allowed and independent"). *)
Definition subscribeToUser (u : jsstring) (h : nat) (st : State) : State :=
  with_subscribers (<[u := {[h]} ∪ subscribers_of u st]>) st.

(** Modelled from the spec: [unsubscribeFromUser] of the absent
    [@/lib/server-state] ("removes exactly that observer; no-op if
    already removed"). *)
Definition unsubscribeFromUser (u : jsstring) (h : nat) (st : State) : State :=
  with_subscribers (<[u := subscribers_of u st ∖ {[h]}]>) st.

(** Modelled from the spec: one delivery attempt of [publish] ("each
    delivery attempt is isolated; an exception/error from one observer's
    push is swallowed"). The observer's [push] is the handler's
    [controller.enqueue(toEventChunk(event))]. *)
Definition deliver (e : ServerEvent) (f : Feed) : Feed :=
  default f (enqueue (Data e) f).

(** Modelled from the spec: [publish] of the absent [@/lib/server-state]
    ("delivers [event] to every currently registered observer of
    [identityId]"; "an exception/error from one observer's push is
    swallowed"; "if no observer is registered, the event is dropped"). *)
Definition publish (u : jsstring) (e : ServerEvent) (st : State) : State :=
  with_feeds
    (map_imap (λ h f,
       Some (if decide (h ∈ subscribers_of u st) then deliver e f else f)))
    st.

(** *** Identity registry *)

(** Modelled from the spec: [getUser] of the absent [@/lib/server-state]
    ("lookup only, no side effects"). *)
Definition getUser (u : jsstring) (st : State) : option User :=
  users st !! u.

(** Modelled from the spec: the identity record shared between the
    registry and the conversations ("IdentityRegistry owns Identity
    records"; a new name is "surfaced the next time that conversation
    snapshot is fetched"): storing a display name shows in every
    conversation the identity takes part in. *)
Definition refresh_participant (u : User) (c : Conversation) : Conversation :=
  match participants c !! uid u with
  | Some _ =>
      {| conv_id := conv_id c; participants := <[uid u := u]> (participants c);
         messages := messages c; updatedAt := updatedAt c |}
  | None => c
  end.

(** Modelled from the spec: the write of an identity record, seen by the
    registry and by every conversation that refers to it. *)
Definition store_identity (u : User) (st : State) : State :=
  with_conversations (fmap (refresh_participant u))
    (with_users (<[uid u := u]>) st).

(** Modelled from the spec: [saveUser] of the absent [@/lib/server-state]
    ("creates the identity if absent, else updates [displayName] only if
    a non-empty name is supplied; always returns the stored record. No
    error conditions"). *)
Definition saveUser (u : jsstring) (n : jsstring) (st : State) : User * State :=
  match users st !! u with
  | None =>
      let r := {| uid := u; name := n |} in
      (r, with_users (<[u := r]>) st)
  | Some r =>
      match n with
      | [] => (r, st)
      | _ :: _ =>
          let r' := {| uid := u; name := n |} in
          (r', store_identity r' st)
      end
  end.

(** Modelled from the spec: [renameParticipant] of the absent
    [@/lib/server-state] ("requires the identity to already exist; if
    absent, must fail with [NotFound]"; a user event is broadcast "to the
    identity's own subscribers"). *)
Definition renameParticipant (u : jsstring) (n : jsstring) (st : State)
    : Result User * State :=
  match users st !! u with
  | None => (Throw {| err_kind := NotFound; err_message := "User not found" |}, st)
  | Some _ =>
      let r' := {| uid := u; name := n |} in
      (Return r', publish u (EvUser u n) (store_identity r' st))
  end.

(** *** Conversation store *)

(** Modelled from the spec: the separator of the canonical conversation
    id ("concatenate with a separator"); which one is not said. *)
Definition separator : jsstring := Eval cbv in lit ":".

(** Modelled from the spec: the canonical conversation id of the absent
    [@/lib/server-state] ("sort the two ids lexicographically,
    concatenate with a separator"). *)
Definition conversationKey (a b : jsstring) : jsstring :=
  if lex_leb a b then a ++ separator ++ b else b ++ separator ++ a.

(** Modelled from the spec: [ensureConversation] of the absent
    [@/lib/server-state] ("fails with [InvalidArgument] if [idA == idB]
    or if either identity is unknown"; "if the conversation does not
    exist, creates it with both participants and an empty message log,
    [updatedAt = now]"; on creation a conversation event goes "to
    subscribers of both participants"). *)
Definition ensureConversation (a b : jsstring) (now : Z) (st : State)
    : Result Conversation * State :=
  if decide (a = b) then
    (Throw {| err_kind := InvalidArgument;
              err_message := "Cannot open a conversation with yourself" |}, st)
  else
    match users st !! a, users st !! b with
    | Some ua, Some ub =>
        let key := conversationKey a b in
        match conversations st !! key with
        | Some c => (Return c, st)
        | None =>
            let c := {| conv_id := key;
                        participants := <[a := ua]> {[b := ub]};
                        messages := []; updatedAt := now |} in
            (Return c,
             publish b (EvConversation c)
               (publish a (EvConversation c)
                  (with_conversations (<[key := c]>) st)))
        end
    | _, _ =>
        (Throw {| err_kind := InvalidArgument; err_message := "Unknown user" |}, st)
    end.

(** Modelled from the spec: one event published to several identities,
    in turn ("to subscribers of both participants"). *)
Definition publish_all (us : list jsstring) (e : ServerEvent) (st : State) : State :=
  foldl (λ s u, publish u e s) st us.

(** Modelled from the spec: [appendMessage] of the absent
    [@/lib/server-state] ("fails with [NotFound] if the conversation
    does not exist. Fails with [InvalidArgument] if the trimmed text is
    empty or author is not one of the two participants. Assigns the
    message a unique id and a timestamp >= the conversation's current
    [updatedAt]; appends to the log; updates [updatedAt]"; a message
    event goes "to subscribers of both participants"). The timestamp is
    the clock reading, or [updatedAt] if the clock is behind it
    ("monotonic per conversation, not wall-clock-strict"). *)
Definition appendMessage (cid : jsstring) (author : User) (text : jsstring)
    (now : Z) (st : State) : Result Message * State :=
  match conversations st !! cid with
  | None =>
      (Throw {| err_kind := NotFound; err_message := "Conversation not found" |}, st)
  | Some c =>
      match trim text, participants c !! uid author with
      | [], _ =>
          (Throw {| err_kind := InvalidArgument;
                    err_message := "Message text is empty" |}, st)
      | _ :: _, None =>
          (Throw {| err_kind := InvalidArgument;
                    err_message := "Not a participant" |}, st)
      | _ :: _, Some _ =>
          let m := {| msg_id := next_message st; msg_conversationId := cid;
                      msg_from := Some (uid author); msg_text := text;
                      msg_kind := KindMessage;
                      msg_timestamp := Z.max now (updatedAt c) |} in
          let c' := {| conv_id := conv_id c; participants := participants c;
                       messages := messages c ++ [m];
                       updatedAt := msg_timestamp m |} in
          (Return m,
           publish_all (elements (dom (participants c))) (EvMessage cid m)
             (with_next_message (N.succ (next_message st))
                (with_conversations (<[cid := c']>) st)))
      end
  end.

(** Modelled from the spec: [listConversationsForUser] of the absent
    [@/lib/server-state] ("returns every conversation where [id] is a
    participant, snapshot at call time"; the order is not prescribed,
    here the store's iteration order). *)
Definition listConversationsForUser (u : jsstring) (st : State) : list Conversation :=
  filter (λ c, is_Some (participants c !! u)) (map_to_list (conversations st)).*2.

End ServerState.

Import ServerState.

(** ** Route handlers *)

(** The JSON payload of a response. *)
Inductive Json :=
| JUser (user : User)
| JConversation (conversation : Conversation)
| JMessage (message : Message)
| JError (error : string).

(** What a handler invocation ends in: a JSON response with its status, a
    streaming response for the live feed with handle [h], or an exception
    that no [catch] of the handler intercepts. *)
Inductive Outcome :=
| Respond (status : Z) (body : Json)
| Stream (h : nat)
| Uncaught (e : StoreError).

(** HTTP statuses of the handlers as the error kinds of the design. *)
Definition kind_of_status (status : Z) : option ErrorKind :=
  if decide (status = 400) then Some InvalidArgument
  else if decide (status = 404) then Some NotFound
  else if decide (status = 500) then Some Internal
  else None.

(** The error kind an outcome carries to the caller, if it is a failure. *)
Definition failure_kind (o : Outcome) : option ErrorKind :=
  match o with
  | Respond status _ => kind_of_status status
  | Stream _ => None
  | Uncaught e => Some (err_kind e)
  end.

Module UserRoute.

(** The properties of the parsed request body the handlers read; a body
    that fails to parse is the empty object, all properties undefined. *)
Record Body := mkBody { body_uid : JsValue; body_name : JsValue }.

(** The default display name. *)
Definition Anonymous : jsstring := Eval cbv in lit "Anonymous".

Definition sanitizeName (value : JsValue) : jsstring :=
  match value with
  | JsString s =>
      let trimmed := trim s in
      if (0 <? length trimmed)%nat then slice0 48 trimmed else Anonymous
  | _ => Anonymous
  end.

(** [!uid] holds of null and of the empty string. *)
Definition POST (body : Body) (st : State) : Outcome * State :=
  let uid := string_or_null (body_uid body) in
  match uid with
  | Some ((_ :: _) as u) =>
      let '(user, st') := saveUser u (sanitizeName (body_name body)) st in
      (Respond 200 (JUser user), st')
  | _ => (Respond 400 (JError "uid must be provided"), st)
  end.

(** The call of [renameParticipant] stands in no [try]: what it throws
    leaves the handler. *)
Definition PUT (body : Body) (st : State) : Outcome * State :=
  let uid := string_or_null (body_uid body) in
  match uid with
  | Some ((_ :: _) as u) =>
      match renameParticipant u (sanitizeName (body_name body)) st with
      | (Return user, st') => (Respond 200 (JUser user), st')
      | (Throw e, st') => (Uncaught e, st')
      end
  | _ => (Respond 400 (JError "uid must be provided"), st)
  end.

End UserRoute.

Module ConnectRoute.

Record Body := mkBody { body_fromUid : JsValue; body_toUid : JsValue }.

(** Every exception of the relay state module is an [Error] instance, so
    the [catch] answers 400 with its message and its 500 branch is not
    taken. *)
Definition POST (body : Body) (now : Z) (st : State) : Outcome * State :=
  let fromUid := string_or_null (body_fromUid body) in
  let toUid := string_or_null (body_toUid body) in
  match fromUid, toUid with
  | Some ((_ :: _) as a), Some ((_ :: _) as b) =>
      match ensureConversation a b now st with
      | (Return conversation, st') => (Respond 200 (JConversation conversation), st')
      | (Throw e, st') => (Respond 400 (JError (err_message e)), st')
      end
  | _, _ => (Respond 400 (JError "fromUid and toUid are required"), st)
  end.

End ConnectRoute.

Module MessageRoute.

Record Body := mkBody {
  body_conversationId : JsValue;
  body_fromUid : JsValue;
  body_text : JsValue
}.

(** [body.text.trim()] if [typeof body.text === "string"], the empty
    string otherwise. *)
Definition text_of (v : JsValue) : jsstring :=
  match v with
  | JsString s => trim s
  | _ => []
  end.

(** The first test rules out null ids, so the last branch of the [match]
    is never taken; as in [/api/connect], the [catch] answers 400. *)
Definition POST (body : Body) (now : Z) (st : State) : Outcome * State :=
  let conversationId := string_or_null (body_conversationId body) in
  let fromUid := string_or_null (body_fromUid body) in
  let text := text_of (body_text body) in
  if falsy conversationId || falsy fromUid || (length text =? 0)%nat then
    (Respond 400 (JError "conversationId, fromUid, and non-empty text are required"), st)
  else
    match conversationId, fromUid with
    | Some cid, Some u =>
        match getUser u st with
        | None => (Respond 404 (JError "User not found"), st)
        | Some user =>
            match appendMessage cid user (slice0 2000 text) now st with
            | (Return message, st') => (Respond 200 (JMessage message), st')
            | (Throw e, st') => (Respond 400 (JError (err_message e)), st')
            end
        end
    | _, _ => (Respond 400 (JError "conversationId, fromUid, and non-empty text are required"), st)
    end.

End MessageRoute.

Module EventsRoute.

(** [cleanup]: unsubscribe, stop the keep-alive, close the controller
    (a second [close] raises and is caught). *)
Definition cleanup (h : nat) (st : State) : State :=
  match feeds st !! h with
  | Some f =>
      with_feeds
        (<[h := {| feed_uid := feed_uid f; feed_queue := feed_queue f;
                   feed_closed := true |}]>)
        (unsubscribeFromUser (feed_uid f) h st)
  | None => st
  end.

(** The stream's [cancel()]: runs [cleanupRef] unless it is already null. *)
Definition cancel (h : nat) (st : State) : State :=
  match feeds st !! h with
  | Some f => if feed_closed f then st else cleanup h st
  | None => st
  end.

(** One firing of the keep-alive interval, which [cleanup] clears. *)
Definition keepAlive (h : nat) (st : State) : State :=
  match feeds st !! h with
  | Some f => with_feeds (<[h := default f (enqueue Ping f)]>) st
  | None => st
  end.

(** [controller.enqueue] of the handler itself, on its own fresh stream. *)
Definition enqueue_on (h : nat) (c : Chunk) (st : State) : State :=
  with_feeds (alter (λ f, default f (enqueue c f)) h) st.

(** [start(controller)]: subscribe, greet, then replay the snapshot. *)
Definition start (u : jsstring) (h : nat) (st : State) : State :=
  let st1 := subscribeToUser u h st in
  let st2 := enqueue_on h (Data (EvHello u)) st1 in
  let conversations := listConversationsForUser u st2 in
  foldl (λ s conversation, enqueue_on h (Data (EvConversation conversation)) s)
    st2 conversations.

(** [uid] is [searchParams.get("uid")], a string or null. The stream is
    built with its [start] callback run at once, on a fresh controller. *)
Definition GET (uid : option jsstring) (st : State) : Outcome * State :=
  match uid with
  | Some ((_ :: _) as u) =>
      let h := fresh (dom (feeds st)) in
      let st0 :=
        with_feeds (<[h := {| feed_uid := u; feed_queue := []; feed_closed := false |}]>) st in
      (Stream h, start u h st0)
  | _ => (Respond 400 (JError "uid is required"), st)
  end.

End EventsRoute.

(** ** The relay as a transition system

    Handlers run to completion: each one reads the request body first and
    then touches the relay state in one synchronous block, so a run of the
    server is a sequence of handler invocations and feed callbacks. *)

Inductive Request :=
| UserPOST (body : UserRoute.Body)
| UserPUT (body : UserRoute.Body)
| ConnectPOST (body : ConnectRoute.Body)
| MessagePOST (body : MessageRoute.Body)
| EventsGET (uid : option jsstring)
| FeedAbort (h : nat)
| FeedCancel (h : nat)
| FeedKeepAlive (h : nat).

(** A step takes the clock reading [now] of the invocation; callbacks of a
    feed answer nothing. *)
Definition handle (now : Z) (r : Request) (st : State) : option Outcome * State :=
  match r with
  | UserPOST body => let '(o, st') := UserRoute.POST body st in (Some o, st')
  | UserPUT body => let '(o, st') := UserRoute.PUT body st in (Some o, st')
  | ConnectPOST body => let '(o, st') := ConnectRoute.POST body now st in (Some o, st')
  | MessagePOST body => let '(o, st') := MessageRoute.POST body now st in (Some o, st')
  | EventsGET uid => let '(o, st') := EventsRoute.GET uid st in (Some o, st')
  | FeedAbort h => (None, EventsRoute.cleanup h st)
  | FeedCancel h => (None, EventsRoute.cancel h st)
  | FeedKeepAlive h => (None, EventsRoute.keepAlive h st)
  end.

(** Running a trace, collecting the outcomes in order. *)
Fixpoint run (tr : list (Z * Request)) (st : State) : list (option Outcome) * State :=
  match tr with
  | [] => ([], st)
  | (now, r) :: tr' =>
      let '(o, st') := handle now r st in
      let '(os, st'') := run tr' st' in
      (o :: os, st'')
  end.

(** ** Blank inputs *)

(** A body property that is missing, not a string, or a string of white
    space only. *)
Definition is_blank (v : JsValue) : bool :=
  match v with
  | JsString s => forallb is_white_space s
  | _ => true
  end.

(** ** A worked scenario: alpha and beta *)

Module Scenario.

Definition alpha : jsstring := Eval cbv in lit "alpha".
Definition beta : jsstring := Eval cbv in lit "beta".
Definition gamma : jsstring := Eval cbv in lit "gamma".

Definition register (u n : jsstring) : Request :=
  UserPOST (UserRoute.mkBody (JsString u) (JsString n)).

Definition connect (a b : jsstring) : Request :=
  ConnectPOST (ConnectRoute.mkBody (JsString a) (JsString b)).

Definition send (cid u text : jsstring) : Request :=
  MessagePOST (MessageRoute.mkBody (JsString cid) (JsString u) (JsString text)).

(** Both identities registered, nothing else. *)
Definition registered : State :=
  Eval vm_compute in
    (run [(1, register alpha (lit "Alpha")); (2, register beta (lit "Beta"))]
       initial_state).2.

Definition channel : jsstring := Eval vm_compute in conversationKey alpha beta.

(** Both registered and connected, one message sent. *)
Definition chatting : State :=
  Eval vm_compute in
    (run [(3, connect alpha beta); (4, send channel alpha (lit "hi"))] registered).2.

(** A run in which the clock steps back once and one send is blank. *)
Definition history : list (Z * Request) :=
  [(1, register alpha (lit "Alpha")); (2, register beta (lit "Beta"));
   (3, connect alpha beta); (10, send channel alpha (lit "hi"));
   (5, send channel beta (lit "   ")); (6, send channel beta (lit "hello"))].

(** What happens while beta's feed is open: a third identity joins and
    connects to beta, alpha writes again and takes a new name. *)
Definition afterwards : list (Z * Request) :=
  [(11, register gamma (lit "Gamma")); (12, connect gamma beta);
   (13, send channel alpha (lit "again")); (14, FeedKeepAlive 0);
   (15, UserPUT (UserRoute.mkBody (JsString alpha) (JsString (lit "Al"))))].

End Scenario.


(** ** Statements that are put to the test *)

(** The claim of C9 read on the handler: a blank name leaves the stored
    display name of a registered identity as it was. *)
Definition blank_name_keeps_display_name : Prop :=
  ∀ st u v r,
    u ≠ [] → users st !! u = Some r → is_blank v = true →
    name <$> users (UserRoute.POST (UserRoute.mkBody (JsString u) v) st).2 !! u
    = Some (name r).


(** The request names a conversation, names an author and carries text
    that is not blank: the negation of the handler's first test. *)
Definition well_formed_message (body : MessageRoute.Body) : bool :=
  negb (falsy (string_or_null (MessageRoute.body_conversationId body))
        || falsy (string_or_null (MessageRoute.body_fromUid body))
        || (length (MessageRoute.text_of (MessageRoute.body_text body)) =? 0)%nat).

(** The author the request names is registered. *)
Definition author_registered (body : MessageRoute.Body) (st : State) : bool :=
  match string_or_null (MessageRoute.body_fromUid body) with
  | Some u => bool_decide (is_Some (users st !! u))
  | None => false
  end.

(** The claim of C2 read on the handler: a conversation id that names no
    conversation is answered with the [NotFound] kind. *)
Definition unknown_conversation_is_NotFound : Prop :=
  ∀ st cid fromUid text now,
    conversations st !! cid = None →
    failure_kind
      (MessageRoute.POST (MessageRoute.mkBody (JsString cid) fromUid text) now st).1
    = Some NotFound.

(** Long text whose 2000th code unit is the first half of a surrogate
    pair: 1999 times "a", then U+1F600. *)
Definition long_text : jsstring := replicate 1999 97%N ++ [55357%N; 56832%N].

(** ** Observations on runs *)

(** The message a step answered with, when the step is a successful send. *)
Definition message_sent (o : option Outcome) : option Message :=
  match o with
  | Some (Respond status (JMessage m)) => if decide (status = 200) then Some m else None
  | _ => None
  end.

(** How many steps of a run were successful sends on conversation [cid]. *)
Definition sends_on (cid : jsstring) (os : list (option Outcome)) : nat :=
  length (filter (λ o, msg_conversationId <$> message_sent o = Some cid) os).

(** Consecutive messages carry non-decreasing timestamps. *)
Definition timestamps_ordered (ms : list Message) : Prop :=
  ∀ i m m', ms !! i = Some m → ms !! S i = Some m' → msg_timestamp m ≤ msg_timestamp m'.

(** The identity takes part in the conversation. *)
Definition participates (u : jsstring) (c : Conversation) : Prop :=
  is_Some (participants c !! u).

(** The conversations of the store the identity takes part in. *)
Definition conversations_of (u : jsstring) (st : State) : gmap jsstring Conversation :=
  filter (λ kc, participates u kc.2) (conversations st).

(** The ids of the conversations a feed was sent, in order. *)
Definition delivered_conversations (q : list Chunk) : list jsstring :=
  q ≫= λ chunk,
    match chunk with
    | Data (EvConversation c) => [conv_id c]
    | _ => []
    end.

(** The messages a feed was sent, in order: inside the message log of a
    conversation event or as a message event of their own. *)
Definition delivered_messages (q : list Chunk) : list Message :=
  q ≫= λ chunk,
    match chunk with
    | Data (EvConversation c) => messages c
    | Data (EvMessage _ m) => [m]
    | _ => []
    end.

Definition is_hello (chunk : Chunk) : bool :=
  match chunk with
  | Data (EvHello _) => true
  | _ => false
  end.

(** The queue of a feed, empty for a handle that names none. *)
Definition queue_of (h : nat) (st : State) : list Chunk :=
  from_option feed_queue [] (feeds st !! h).

(** The feed a step tears down, if it is a disconnect. *)
Definition closes (r : Request) : option nat :=
  match r with
  | FeedAbort h | FeedCancel h => Some h
  | _ => None
  end.

(** The feed with handle [h] stays connected throughout the trace: no step
    is its disconnect. *)
Definition stays_connected (h : nat) (tr : list (Z * Request)) : bool :=
  forallb (λ step : Z * Request, bool_decide (closes step.2 ≠ Some h)) tr.

(** ** What a step does to the relay state

    Every handler invocation has one of a few effects on the state; the
    invariants below are shown effect by effect. [transition st o k st']:
    a step from [st] with outcome [o] ends in [st'], tearing down the feed
    [k] if it is a disconnect. *)
Inductive transition (st : State) : option Outcome → option nat → State → Prop :=
| t_unchanged o k :
    message_sent o = None →
    transition st o k st
| t_new_identity o r :
    message_sent o = None →
    transition st o None (with_users (<[uid r := r]>) st)
| t_store_identity o r :
    message_sent o = None →
    transition st o None (store_identity r st)
| t_rename o r :
    message_sent o = None →
    transition st o None (publish (uid r) (EvUser (uid r) (name r)) (store_identity r st))
| t_new_conversation o a b c :
    message_sent o = None →
    a ≠ b →
    conversations st !! conv_id c = None →
    dom (participants c) = {[a; b]} →
    messages c = [] →
    transition st o None
      (publish b (EvConversation c)
         (publish a (EvConversation c) (with_conversations (<[conv_id c := c]>) st)))
| t_append cid c m :
    conversations st !! cid = Some c →
    msg_id m = next_message st →
    msg_conversationId m = cid →
    updatedAt c ≤ msg_timestamp m →
    transition st (Some (Respond 200 (JMessage m))) None
      (publish_all (elements (dom (participants c))) (EvMessage cid m)
         (with_next_message (N.succ (next_message st))
            (with_conversations
               (<[cid := {| conv_id := conv_id c; participants := participants c;
                            messages := messages c ++ [m];
                            updatedAt := msg_timestamp m |}]>) st)))
| t_open u h :
    h ∉ dom (feeds st) →
    transition st (Some (Stream h)) None
      (EventsRoute.start u h
         (with_feeds (<[h := {| feed_uid := u; feed_queue := []; feed_closed := false |}]>) st))
| t_cleanup h :
    transition st None (Some h) (EventsRoute.cleanup h st)
| t_keepAlive h f :
    feeds st !! h = Some f →
    transition st None None (with_feeds (<[h := default f (enqueue Ping f)]>) st).

(** ** Invariants of the relay state *)

(** A stored conversation is filed under its own id; its messages are
    distinct, belong to it, carry ids the store has already handed out,
    are ordered by timestamp, and none is later than [updatedAt]. *)
Record conversation_ok (bound : N) (cid : jsstring) (c : Conversation) : Prop := {
  ok_id : conv_id c = cid;
  ok_nodup : NoDup (messages c);
  ok_owner : ∀ m, m ∈ messages c → msg_conversationId m = cid ∧ (msg_id m < bound)%N;
  ok_ordered : timestamps_ordered (messages c);
  ok_updated : ∀ m, m ∈ messages c → msg_timestamp m ≤ updatedAt c
}.

Definition store_ok (st : State) : Prop :=
  ∀ cid c, conversations st !! cid = Some c → conversation_ok (next_message st) cid c.

(** Every registered observer is an open feed of the identity it is
    registered for. *)
Definition subscriptions_ok (st : State) : Prop :=
  ∀ u h, h ∈ subscribers_of u st →
         ∃ f, feeds st !! h = Some f ∧ feed_uid f = u ∧ feed_closed f = false.

(** The message log of every conversation is as long as the number of
    successful sends [n] counts for it. *)
Definition log_ok (n : jsstring → nat) (st : State) : Prop :=
  ∀ cid, match conversations st !! cid with
         | Some c => length (messages c) = n cid
         | None => n cid = 0%nat
         end.

(** The feed [h] is an open feed of identity [u], registered as its observer. *)
Definition feed_live (h : nat) (u : jsstring) (st : State) : Prop :=
  ∃ f, feeds st !! h = Some f ∧ feed_uid f = u ∧ feed_closed f = false
       ∧ h ∈ subscribers_of u st.

(** What one publication to the identities [us] adds to the queue of a live
    feed of [u]. *)
Definition published_to (u : jsstring) (us : list jsstring) (e : ServerEvent) : list Chunk :=
  us ≫= λ u', if decide (u' = u) then [Data e] else [].

(** The feed [h] of identity [u] is in step with the store: it has been
    sent every conversation of [u] and every message of these, each exactly
    once, and nothing the store does not hold. *)
Record feed_synced (h : nat) (u : jsstring) (st : State) : Prop := {
  synced_live : feed_live h u st;
  synced_conv_once : NoDup (delivered_conversations (queue_of h st));
  synced_conv_known :
    ∀ cid, cid ∈ delivered_conversations (queue_of h st) → is_Some (conversations st !! cid);
  synced_conv_all :
    ∀ cid c, conversations st !! cid = Some c → participates u c →
             cid ∈ delivered_conversations (queue_of h st);
  synced_msg_once : NoDup (delivered_messages (queue_of h st));
  synced_msg_known :
    ∀ m, m ∈ delivered_messages (queue_of h st) → (msg_id m < next_message st)%N;
  synced_msg_all :
    ∀ cid c m, conversations st !! cid = Some c → participates u c → m ∈ messages c →
               m ∈ delivered_messages (queue_of h st)
}.

(** How often [x] occurs in [l]. *)
Definition occurrences {A} `{EqDecision A} (x : A) (l : list A) : nat :=
  length (filter (λ y, y = x) l).

(** The chunks of a snapshot: one conversation event per conversation. *)
Definition snapshot_chunks (cs : list Conversation) : list Chunk :=
  (λ c, Data (EvConversation c)) <$> cs.

(** A step leaves an existing feed in place and only adds to its queue,
    and never a second greeting. *)
Definition queue_grows (h : nat) (st st' : State) : Prop :=
  is_Some (feeds st !! h) →
  is_Some (feeds st' !! h)
  ∧ ∃ added, queue_of h st' = queue_of h st ++ added
             ∧ Forall (λ chunk, is_hello chunk = false) added.


(** ** Shapes of stored text *)

(** The string is not empty and starts with a code unit that is not
    white space. *)
Definition starts_visible (s : jsstring) : bool :=
  match s with
  | c :: _ => negb (is_white_space c)
  | [] => false
  end.

(** The string is not empty and ends with a code unit that is not white
    space. *)
Definition ends_visible (s : jsstring) : bool := starts_visible (reverse s).

(** A registered identity is filed under its own non-empty id and carries
    a display name as [sanitizeName] makes them. *)
Definition identity_ok (u : jsstring) (r : User) : Prop :=
  uid r = u ∧ u ≠ []
  ∧ (1 ≤ length (name r) ≤ 48)%nat ∧ starts_visible (name r) = true.

(** A stored message is a participant's message with text as the message
    handler passes it on: between 1 and 2000 code units, no white space in
    front. *)
Definition message_ok (c : Conversation) (m : Message) : Prop :=
  (1 ≤ length (msg_text m) ≤ 2000)%nat
  ∧ starts_visible (msg_text m) = true
  ∧ msg_kind m = KindMessage
  ∧ ∃ u, msg_from m = Some u ∧ participates u c.

(** ** The terminal component

    The client component [MeshTerminal]: the state updaters it passes to
    [setLog] and [setSessions], the event handler of its live feed and the
    sessions it shows. *)

Module MeshTerminal.

(** Built-ins of the JavaScript runtime that the component calls and that
    the string and record types here do not determine: the case mappings
    of Unicode, and the order in which [Object.values] lists the
    properties of a participants object. *)
Class JsRuntime := {
  toUpperCase : jsstring → jsstring;
  toLowerCase : jsstring → jsstring;
  objectValues : gmap jsstring User → list User
}.

Inductive LogTone := Info | Success | Warn | Error.

Record LogLine := mkLogLine {
  line_id : jsstring;
  line_text : jsstring;
  line_tone : LogTone;
  line_timestamp : Z
}.

(** A call [appendLog(text, tone)]. *)
Abbreviation LogCall := (jsstring * LogTone)%type.

(** The updater [appendLog] hands to [setLog]; [id] is what
    [crypto.randomUUID()] returned and [now] what [Date.now()] returned
    when the line was made. *)
Definition appendLog (id : jsstring) (now : Z) (text : jsstring) (tone : LogTone)
    (prev : list LogLine) : list LogLine :=
  let next :=
    prev ++ [{| line_id := id; line_text := text; line_tone := tone;
                line_timestamp := now |}] in
  if (200 <? length next)%nat then drop (length next - 200) next else next.

(** [SessionsIndex], a record from conversation id to conversation, with
    its properties in the order they were first set (the order of
    [Object.values] for keys that are not array indices). *)
Abbreviation SessionsIndex := (list (jsstring * Conversation)).

(** [sessions[id]] *)
Fixpoint session (id : jsstring) (sessions : SessionsIndex) : option Conversation :=
  match sessions with
  | [] => None
  | (k, c) :: rest => if decide (k = id) then Some c else session id rest
  end.

(** [{ ...prev, [id]: conversation }]: a known key keeps its place, a new
    one goes last. *)
Fixpoint with_session (id : jsstring) (conversation : Conversation) (prev : SessionsIndex)
    : SessionsIndex :=
  match prev with
  | [] => [(id, conversation)]
  | (k, c) :: rest =>
      if decide (k = id) then (k, conversation) :: rest
      else (k, c) :: with_session id conversation rest
  end.

(** [parts.join(separator)] *)
Fixpoint join (separator : jsstring) (parts : list jsstring) : jsstring :=
  match parts with
  | [] => []
  | [p] => p
  | p :: rest => p ++ separator ++ join separator rest
  end.

(** One step of the stable sort by [b.updatedAt - a.updatedAt]: the
    conversation goes behind those updated later and before the rest. *)
Fixpoint insert_by_updatedAt (c : Conversation) (sorted : list Conversation)
    : list Conversation :=
  match sorted with
  | [] => [c]
  | d :: rest =>
      if updatedAt c <? updatedAt d then d :: insert_by_updatedAt c rest
      else c :: d :: rest
  end.

(** [Object.values(sessions).sort((a, b) => b.updatedAt - a.updatedAt)] *)
Definition sortedSessions (sessions : SessionsIndex) : list Conversation :=
  foldr insert_by_updatedAt [] sessions.*2.

(** [activeSession]; a null or empty [activeConversation] is falsy. *)
Definition activeSession (activeConversation : option jsstring) (sessions : SessionsIndex)
    : option Conversation :=
  match activeConversation with
  | Some ((_ :: _) as id) => session id sessions
  | _ => head (sortedSessions sessions)
  end.

(** [text.split(/\s+/)]: the pieces between the runs of white space, with
    an empty piece in front of a leading run and behind a trailing one.
    [in_gap] tells that the scan is inside a run, [word] holds the piece
    read so far, last code unit first. *)
Fixpoint split_white_space_from (in_gap : bool) (word : jsstring) (s : jsstring)
    : list jsstring :=
  match s with
  | [] => [reverse word]
  | c :: s' =>
      if is_white_space c then
        if in_gap then split_white_space_from true word s'
        else reverse word :: split_white_space_from true [] s'
      else split_white_space_from false (c :: word) s'
  end.

Definition split_white_space (s : jsstring) : list jsstring :=
  split_white_space_from false [] s.

(** The branch of [runCommand] a line takes, with what the branch is
    given: the words behind the command joined by single spaces, or, for a
    line that starts with no command, the whole trimmed line. *)
Inductive Action :=
| Nothing
| OpenManual
| Rename (payload : jsstring)
| Connect (payload : jsstring)
| ListSessions
| SwitchSession (payload : jsstring)
| ClearLog
| ShowUid
| Send (trimmed : jsstring).

Section component.

Context `{JsRuntime}.

(** The component's own identifier, [uid]. *)
Variable self : jsstring.

Definition shortId (value : jsstring) : jsstring := toUpperCase (slice0 8 value).

(** The updater of [upsertSessions] with the log call it makes: a
    conversation seen for the first time is announced. *)
Definition upsertSessions (conversation : Conversation) (prev : SessionsIndex)
    : SessionsIndex * list LogCall :=
  let existing := session (conv_id conversation) prev in
  let next := with_session (conv_id conversation) conversation prev in
  match existing with
  | None =>
      (next,
       [(lit "Session " ++ shortId (conv_id conversation) ++ lit " online with "
         ++ join (lit ", ")
              (name <$> filter (λ participant, uid participant ≠ self)
                          (objectValues (participants conversation))),
         Success)])
  | Some _ => (next, [])
  end.

(** The updater of [upsertMessage] with the log call it makes: a message
    for an unknown session or with an id the session already holds is
    dropped. *)
Definition upsertMessage (conversationId : jsstring) (message : Message)
    (prev : SessionsIndex) : SessionsIndex * list LogCall :=
  match session conversationId prev with
  | None => (prev, [])
  | Some current =>
      if existsb (λ entry, bool_decide (msg_id entry = msg_id message)) (messages current)
      then (prev, [])
      else
        let next :=
          with_session conversationId
            {| conv_id := conv_id current; participants := participants current;
               messages := messages current ++ [message];
               updatedAt := msg_timestamp message |} prev in
        let author :=
          match participants current !! default [] (msg_from message) with
          | Some participant => name participant
          | None => lit "System"
          end in
        if bool_decide (msg_kind message = KindMessage)
           && bool_decide (msg_from message ≠ Some self)
        then (next,
              [(author ++ [32; 10140; 32]%N ++ shortId conversationId ++ lit ": "
                ++ msg_text message, Info)])
        else (next, [])
  end.

Definition handleEvent (event : ServerEvent) (prev : SessionsIndex)
    : SessionsIndex * list LogCall :=
  match event with
  | EvHello u => (prev, [(lit "Linked to relay as " ++ shortId u ++ lit ".", Info)])
  | EvConversation payload => upsertSessions payload prev
  | EvMessage conversationId message => upsertMessage conversationId message prev
  | EvUser u n => (prev, [(n ++ lit " (" ++ shortId u ++ lit ") is online.", Info)])
  | EvSystem text => (prev, [(text, Warn)])
  end.

(** [source.onmessage]: an event chunk is parsed and handled; a keep-alive
    comment raises no message event. *)
Definition onmessage (chunk : Chunk) (prev : SessionsIndex) : SessionsIndex * list LogCall :=
  match chunk with
  | Data event => handleEvent event prev
  | Ping => (prev, [])
  end.

(** The sessions after the feed delivered [q], starting from [prev]. *)
Definition replay (q : list Chunk) (prev : SessionsIndex) : SessionsIndex :=
  foldl (λ sessions chunk, (onmessage chunk sessions).1) prev q.

(** [runCommand] down to its [switch]: a blank line does nothing, the
    first word picks the branch whatever its case. *)
Definition runCommand (raw : jsstring) : Action :=
  let trimmed := trim raw in
  match trimmed with
  | [] => Nothing
  | _ :: _ =>
      match split_white_space trimmed with
      | [] => Nothing
      | command :: rest =>
          let payload := join (lit " ") rest in
          let word := toLowerCase command in
          if bool_decide (word = lit "help") || bool_decide (word = lit "manual")
          then OpenManual
          else if bool_decide (word = lit "name") then Rename payload
          else if bool_decide (word = lit "connect") then Connect payload
          else if bool_decide (word = lit "sessions") then ListSessions
          else if bool_decide (word = lit "switch") then SwitchSession payload
          else if bool_decide (word = lit "clear") then ClearLog
          else if bool_decide (word = lit "uid") then ShowUid
          else Send trimmed
      end
  end.

(** [sendRename] up to its [fetch]: the log calls made and the request
    issued, if any. *)
Definition sendRename (nextName : jsstring) : list LogCall * option Request :=
  match trim nextName with
  | [] => ([(lit "Name cannot be empty.", Error)], None)
  | (_ :: _) as name =>
      ([], Some (UserPUT (UserRoute.mkBody (JsString self) (JsString name))))
  end.

(** [sendConnect] up to its [fetch]. *)
Definition sendConnect (target : jsstring) : list LogCall * option Request :=
  match trim target with
  | [] => ([(lit "Provide a UID to connect.", Warn)], None)
  | (_ :: _) as peer =>
      if bool_decide (peer = self)
      then ([(lit "Loopback disabled. Specify another UID.", Warn)], None)
      else ([(lit "Negotiating session with " ++ shortId peer ++ [8230%N], Info)],
            Some (ConnectPOST (ConnectRoute.mkBody (JsString self) (JsString peer))))
  end.

(** [sendConnect] after a response that is [ok]: the new value of
    [activeConversation], the effect of [upsertSessions], and the log call
    the function makes itself. *)
Definition sendConnect_ok (conversation : Conversation) (prev : SessionsIndex)
    : option jsstring * (SessionsIndex * list LogCall) * LogCall :=
  (Some (conv_id conversation),
   upsertSessions conversation prev,
   (lit "Session " ++ shortId (conv_id conversation) ++ lit " synchronized.", Success)).

(** [sendMessage] up to its [fetch]; [active] is [activeSession]. A missing
    session and a session with the empty id are both falsy targets. *)
Definition sendMessage (payload : jsstring) (active : option Conversation)
    : list LogCall * option Request :=
  match trim payload with
  | [] => ([], None)
  | (_ :: _) as trimmed =>
      match conv_id <$> active with
      | Some ((_ :: _) as target) =>
          ([], Some (MessagePOST
                       (MessageRoute.mkBody (JsString target) (JsString self)
                          (JsString trimmed))))
      | _ => ([(lit "No active session. Use connect or switch first.", Warn)], None)
      end
  end.

End component.

End MeshTerminal.

(** The log after the lines were appended one by one to an empty log. *)
Definition log_after (lines : list MeshTerminal.LogLine) : list MeshTerminal.LogLine :=
  foldl (λ log l,
           MeshTerminal.appendLog (MeshTerminal.line_id l) (MeshTerminal.line_timestamp l)
             (MeshTerminal.line_text l) (MeshTerminal.line_tone l) log)
        [] lines.

(** Later entries were not updated after earlier ones. *)
Definition recent_first (l : list Conversation) : Prop :=
  ∀ i c d, l !! i = Some c → l !! S i = Some d → updatedAt d ≤ updatedAt c.



(** A runtime to compute with: the case mappings on ASCII letters only,
    and the properties of a participants object in the order of the map. *)
Definition ascii_upper (s : jsstring) : jsstring :=
  (λ c, if (97 <=? c)%N && (c <=? 122)%N then (c - 32)%N else c) <$> s.

Definition ascii_lower (s : jsstring) : jsstring :=
  (λ c, if (65 <=? c)%N && (c <=? 90)%N then (c + 32)%N else c) <$> s.

Definition ascii_runtime : MeshTerminal.JsRuntime :=
  {| MeshTerminal.toUpperCase := ascii_upper;
     MeshTerminal.toLowerCase := ascii_lower;
     MeshTerminal.objectValues := λ m, (map_to_list m).*2 |}.

(** The string is empty or has visible code units at both ends: what
    [trim] leaves as it is. *)
Definition clean (s : jsstring) : bool :=
  match s with
  | [] => true
  | _ :: _ => starts_visible s && ends_visible s
  end.

(** A word: not empty, no white space in it. *)
Definition is_word (w : jsstring) : bool :=
  match w with
  | [] => false
  | _ :: _ => forallb (λ c, negb (is_white_space c)) w
  end.

(** The identity takes part in the conversation the store keeps under the
    id. *)
Definition takes_part (u cid : jsstring) (st : State) : bool :=
  match conversations st !! cid with
  | Some c => bool_decide (is_Some (participants c !! u))
  | None => false
  end.
(** ** Facts about the string primitives *)

Section js_strings.

Implicit Types s t : jsstring.

Lemma lex_leb_antisym s t : lex_leb s t = true → lex_leb t s = true → s = t.
Proof.
  revert t. induction s as [|x s IH]; intros [|y t]; simpl; try done.
  destruct (N.ltb_spec x y), (N.ltb_spec y x); try done; try lia.
  intros. f_equal; [lia | by apply IH].
Qed.

Lemma lex_leb_total s t : lex_leb s t = false → lex_leb t s = true.
Proof.
  revert t. induction s as [|x s IH]; intros [|y t]; simpl; try done.
  destruct (N.ltb_spec x y), (N.ltb_spec y x); try done; try lia.
  apply IH.
Qed.

Lemma trimStart_blank s :
  Forall (λ c, is_white_space c = true) s → trimStart s = [].
Proof. induction 1 as [|c s Hc _ IH]; simpl; [done | by rewrite Hc]. Qed.

Lemma trimStart_nil_blank s :
  trimStart s = [] → Forall (λ c, is_white_space c = true) s.
Proof.
  induction s as [|c s IH]; simpl; [constructor |].
  destruct (is_white_space c) eqn:Hc; [| done].
  intros. constructor; auto.
Qed.

(** What [trimStart] returns is empty or starts with a visible code unit. *)
Lemma trimStart_head s c t : trimStart s = c :: t → is_white_space c = false.
Proof.
  induction s as [|d s IH]; simpl; [done |].
  destruct (is_white_space d) eqn:Hd; [done |].
  by intros [= <- _].
Qed.

Lemma trimStart_snoc s c :
  is_white_space c = false → trimStart (s ++ [c]) = trimStart s ++ [c].
Proof.
  intros Hc. induction s as [|d s IH]; simpl; [by rewrite Hc |].
  by destruct (is_white_space d).
Qed.

Lemma trimEnd_cons c t :
  is_white_space c = false → ∃ t', trimEnd (c :: t) = c :: t'.
Proof.
  intros Hc. unfold trimEnd. rewrite reverse_cons, trimStart_snoc by done.
  rewrite reverse_snoc. eauto.
Qed.

(** A blank string, and only a blank one, trims to the empty string. *)
Lemma trim_blank s : Forall (λ c, is_white_space c = true) s ↔ trim s = [].
Proof.
  unfold trim. split.
  - intros H. by rewrite (trimStart_blank s H).
  - intros H. apply trimStart_nil_blank.
    destruct (trimStart s) as [|c t] eqn:Hs; [done |].
    destruct (trimEnd_cons c t (trimStart_head _ _ _ Hs)) as [t' Ht'].
    by rewrite Ht' in H.
Qed.

(** A non-empty trimmed string starts with a visible code unit. *)
Lemma trim_head s c t : trim s = c :: t → is_white_space c = false.
Proof.
  unfold trim. destruct (trimStart s) as [|d u] eqn:Hs; [done |].
  pose proof (trimStart_head _ _ _ Hs) as Hd.
  destruct (trimEnd_cons d u Hd) as [t' Ht']. rewrite Ht'.
  by intros [= <- _].
Qed.

Lemma trim_visible_head c t : is_white_space c = false → trim (c :: t) ≠ [].
Proof.
  intros Hc. unfold trim. simpl. rewrite Hc.
  destruct (trimEnd_cons c t Hc) as [t' ->]. done.
Qed.

(** Truncating a trimmed string to a positive length leaves text that
    does not trim to nothing. *)
Lemma trim_slice0_nonblank n s :
  trim s ≠ [] → trim (slice0 (S n) (trim s)) ≠ [].
Proof.
  destruct (trim s) as [|c t] eqn:Hs; [done |]. intros _.
  simpl. apply trim_visible_head. eapply trim_head, Hs.
Qed.

(** The two surrogate ranges are disjoint. *)
Lemma high_not_low c : is_high_surrogate c = true → is_low_surrogate c = false.
Proof.
  unfold is_high_surrogate, is_low_surrogate.
  rewrite andb_true_iff, !N.leb_le. intros [_ ?].
  apply andb_false_iff. left. apply N.leb_gt. lia.
Qed.

(** A string that ends in a high surrogate is not well-formed. *)
Lemma isWellFormed_lone_high s c :
  is_high_surrogate c = true → isWellFormed (s ++ [c]) = false.
Proof.
  intros Hc. remember (length s) as n eqn:Hn.
  revert s Hn. induction (lt_wf n) as [n _ IH]. intros s ->.
  destruct s as [|d s]; simpl; [by rewrite Hc |].
  destruct (is_high_surrogate d).
  - destruct s as [|e s]; simpl.
    + by rewrite (high_not_low c Hc).
    + rewrite (IH (length s)); [apply andb_false_r | simpl; lia | done].
  - destruct (is_low_surrogate d); [done |].
    apply (IH (length s)); [simpl; lia | done].
Qed.

End js_strings.

(** ** Facts about blank inputs *)

Lemma forallb_white_space_trim (s : jsstring) :
  forallb is_white_space s = true ↔ trim s = [].
Proof.
  rewrite <- trim_blank, Forall_forall, forallb_forall.
  split; intros H c Hc; apply H; by apply list_elem_of_In.
Qed.

Lemma is_blank_text_of (v : JsValue) :
  is_blank v = true ↔ MessageRoute.text_of v = [].
Proof. destruct v; simpl; try done. apply forallb_white_space_trim. Qed.

Lemma sanitizeName_blank (v : JsValue) :
  is_blank v = true → UserRoute.sanitizeName v = UserRoute.Anonymous.
Proof.
  destruct v as [| | | |s]; simpl; try done.
  intros H. apply forallb_white_space_trim in H. by rewrite H.
Qed.

Lemma sanitizeName_visible (s : jsstring) :
  is_blank (JsString s) = false →
  UserRoute.sanitizeName (JsString s) = take 48 (trim s) ∧ trim s ≠ [].
Proof.
  simpl. intros H.
  assert (trim s ≠ []) as Hne.
  { intros Ht. apply forallb_white_space_trim in Ht. congruence. }
  split; [| done]. destruct (trim s); [done | reflexivity].
Qed.

Lemma sanitizeName_nonempty (v : JsValue) : UserRoute.sanitizeName v ≠ [].
Proof.
  destruct (is_blank v) eqn:Hb.
  - by rewrite sanitizeName_blank.
  - destruct v as [| | | |s]; try done.
    destruct (sanitizeName_visible s Hb) as [-> Hne].
    by destruct (trim s).
Qed.

Lemma sanitizeName_length (v : JsValue) : (length (UserRoute.sanitizeName v) ≤ 48)%nat.
Proof.
  destruct (is_blank v) eqn:Hb.
  - rewrite sanitizeName_blank by done. vm_compute. lia.
  - destruct v as [| | | |s]; try done.
    destruct (sanitizeName_visible s Hb) as [-> _].
    rewrite length_take. lia.
Qed.


(** ** Identity registration: [/api/user] *)

Section user_route.

Implicit Types (st : State) (u : jsstring) (v : JsValue).

Lemma user_POST_stores st u v :
  u ≠ [] →
  let r := {| uid := u; name := UserRoute.sanitizeName v |} in
  ∃ st', UserRoute.POST (UserRoute.mkBody (JsString u) v) st = (Respond 200 (JUser r), st')
         ∧ users st' !! u = Some r.
Proof.
  intros Hu r. destruct u as [|c u]; [done |]. unfold UserRoute.POST; simpl.
  unfold saveUser.
  pose proof (sanitizeName_nonempty v) as Hn.
  destruct (users st !! (c :: u)) as [r0|] eqn:Hr.
  - destruct (UserRoute.sanitizeName v) as [|d n] eqn:Hs; [done |].
    eexists. split; [reflexivity |]. simpl. apply lookup_insert_eq.
  - eexists. split; [reflexivity |]. simpl. apply lookup_insert_eq.
Qed.

(** C8: whatever the [name] property of the body is, registering a
    well-formed identity id answers 200, never an error, and the display
    name stored for the id is the trimmed input cut to its first 48 code
    units, or "Anonymous" when the input is missing, not a string, or
    blank after trimming. *)
Theorem register_display_name st u v :
  u ≠ [] →
  ∃ r st',
    UserRoute.POST (UserRoute.mkBody (JsString u) v) st = (Respond 200 (JUser r), st')
    ∧ failure_kind (Respond 200 (JUser r)) = None
    ∧ users st' !! u = Some r
    ∧ (length (name r) ≤ 48)%nat
    ∧ (is_blank v = true → name r = lit "Anonymous")
    ∧ (∀ s, v = JsString s → is_blank v = false → name r = take 48 (trim s)).
Proof.
  intros Hu. destruct (user_POST_stores st u v Hu) as (st' & HP & Hst).
  eexists _, st'. split; [exact HP |]. split; [done |]. split; [exact Hst |].
  simpl. split; [apply sanitizeName_length |]. split.
  - apply sanitizeName_blank.
  - intros s -> Hb. by destruct (sanitizeName_visible s Hb).
Qed.

Lemma register_display_name_witness :
  ∃ r st',
    UserRoute.POST
      (UserRoute.mkBody (JsString Scenario.gamma) (JsString (lit "  Gamma Ray  ")))
      Scenario.registered = (Respond 200 (JUser r), st')
    ∧ failure_kind (Respond 200 (JUser r)) = None
    ∧ users st' !! Scenario.gamma = Some r
    ∧ (length (name r) ≤ 48)%nat
    ∧ (is_blank (JsString (lit "  Gamma Ray  ")) = true → name r = lit "Anonymous")
    ∧ (∀ s, JsString (lit "  Gamma Ray  ") = JsString s →
            is_blank (JsString (lit "  Gamma Ray  ")) = false →
            name r = take 48 (trim s)).
Proof. apply (register_display_name Scenario.registered Scenario.gamma). vm_compute. discriminate. Defined.

(** C9, refuted: alpha is registered as "Alpha"; registering it again
    with the name "  " stores "Anonymous". *)
Lemma blank_name_overwrites_alpha :
  name <$> users Scenario.registered !! Scenario.alpha = Some (lit "Alpha")
  ∧ is_blank (JsString (lit "  ")) = true
  ∧ name <$> users (UserRoute.POST
                      (UserRoute.mkBody (JsString Scenario.alpha) (JsString (lit "  ")))
                      Scenario.registered).2 !! Scenario.alpha
    = Some (lit "Anonymous")
  ∧ ¬ blank_name_keeps_display_name.
Proof.
  split; [by vm_compute |]. split; [by vm_compute |]. split; [by vm_compute |].
  intros H.
  specialize (H Scenario.registered Scenario.alpha (JsString (lit "  "))
                {| uid := Scenario.alpha; name := lit "Alpha" |}).
  vm_compute in H. by specialize (H ltac:(discriminate) eq_refl eq_refl).
Qed.

(** C9, amended: for a registered identity, registering again with a
    blank name stores the display name "Anonymous", because the handler
    replaces a blank name before the registry sees it; the registry's own
    upsert keeps the stored record when it is handed the empty name. *)
Theorem blank_name_stores_Anonymous st u v r :
  u ≠ [] → users st !! u = Some r → is_blank v = true →
  name <$> users (UserRoute.POST (UserRoute.mkBody (JsString u) v) st).2 !! u
  = Some (lit "Anonymous")
  ∧ saveUser u [] st = (r, st).
Proof.
  intros Hu Hr Hb. split.
  - destruct (user_POST_stores st u v Hu) as (st' & HP & Hst).
    rewrite HP. simpl. rewrite Hst. simpl.
    by rewrite sanitizeName_blank.
  - unfold saveUser. by rewrite Hr.
Qed.

Lemma blank_name_stores_Anonymous_witness :
  name <$> users (UserRoute.POST
                    (UserRoute.mkBody (JsString Scenario.alpha) JsUndefined)
                    Scenario.registered).2 !! Scenario.alpha
  = Some (lit "Anonymous")
  ∧ saveUser Scenario.alpha [] Scenario.registered
    = ({| uid := Scenario.alpha; name := lit "Alpha" |}, Scenario.registered).
Proof.
  apply (blank_name_stores_Anonymous Scenario.registered Scenario.alpha JsUndefined).
  - vm_compute. discriminate.
  - vm_compute. reflexivity.
  - reflexivity.
Defined.

(** C6: renaming a well-formed identity id that the registry does not
    hold fails with the registry's [NotFound] error, which the handler
    does not catch, and leaves the whole relay state, so the registry
    too, as it was: the identity is not created. *)
Theorem rename_unknown_identity st u v :
  u ≠ [] → users st !! u = None →
  ∃ e, UserRoute.PUT (UserRoute.mkBody (JsString u) v) st = (Uncaught e, st)
       ∧ failure_kind (Uncaught e) = Some NotFound
       ∧ users (UserRoute.PUT (UserRoute.mkBody (JsString u) v) st).2 !! u = None.
Proof.
  intros Hu Hr. destruct u as [|c u]; [done |].
  unfold UserRoute.PUT, renameParticipant; simpl. rewrite Hr.
  eexists. split; [reflexivity |]. split; [reflexivity | exact Hr].
Qed.

Lemma rename_unknown_identity_witness :
  ∃ e, UserRoute.PUT (UserRoute.mkBody (JsString Scenario.gamma) (JsString (lit "Gamma")))
         Scenario.registered = (Uncaught e, Scenario.registered)
       ∧ failure_kind (Uncaught e) = Some NotFound
       ∧ users (UserRoute.PUT
                  (UserRoute.mkBody (JsString Scenario.gamma) (JsString (lit "Gamma")))
                  Scenario.registered).2 !! Scenario.gamma = None.
Proof.
  apply (rename_unknown_identity Scenario.registered Scenario.gamma).
  - vm_compute. discriminate.
  - vm_compute. reflexivity.
Defined.

End user_route.

(** ** Frame properties of [publish] *)

Section publish_frame.

Implicit Types (st : State) (u : jsstring) (e : ServerEvent).

Lemma publish_users u e st : users (publish u e st) = users st.
Proof. reflexivity. Qed.

Lemma publish_conversations u e st : conversations (publish u e st) = conversations st.
Proof. reflexivity. Qed.

Lemma publish_subscribers u e st : subscribers (publish u e st) = subscribers st.
Proof. reflexivity. Qed.

Lemma publish_next_message u e st : next_message (publish u e st) = next_message st.
Proof. reflexivity. Qed.

Lemma publish_all_frame us e st :
  users (publish_all us e st) = users st
  ∧ conversations (publish_all us e st) = conversations st
  ∧ subscribers (publish_all us e st) = subscribers st
  ∧ next_message (publish_all us e st) = next_message st.
Proof.
  revert st. induction us as [|u us IH]; intros st; simpl; [done |].
  destruct (IH (publish u e st)) as (-> & -> & -> & ->). done.
Qed.

End publish_frame.

(** ** Sending messages: [/api/message] *)

Section message_route.

Implicit Types (st : State) (now : Z) (body : MessageRoute.Body).

(** C5: a message whose text is missing, empty or white space only is
    answered 400, the [InvalidArgument] kind, whatever the conversation
    id and the author are, and the relay state, with every conversation's
    message list and [updatedAt], is left as it was. *)
Theorem message_blank_text_rejected (conversationId fromUid text : JsValue) now st :
  is_blank text = true →
  ∃ error,
    MessageRoute.POST (MessageRoute.mkBody conversationId fromUid text) now st
    = (Respond 400 (JError error), st)
    ∧ failure_kind (Respond 400 (JError error)) = Some InvalidArgument.
Proof.
  intros Hb. apply is_blank_text_of in Hb.
  unfold MessageRoute.POST; simpl. rewrite Hb. simpl.
  rewrite !orb_true_r. eauto.
Qed.

Lemma message_blank_text_rejected_witness :
  ∃ error,
    MessageRoute.POST
      (MessageRoute.mkBody (JsString Scenario.channel) (JsString Scenario.alpha)
         (JsString (lit "   ")))
      9 Scenario.chatting
    = (Respond 400 (JError error), Scenario.chatting)
    ∧ failure_kind (Respond 400 (JError error)) = Some InvalidArgument.
Proof. apply message_blank_text_rejected. reflexivity. Defined.

(** C2, refuted: alpha is registered and sends "hi" to a conversation id
    that names nothing; the store's failure is caught and answered 400,
    the [InvalidArgument] kind. *)
Lemma unknown_conversation_answered_400 :
  conversations Scenario.registered !! lit "nowhere" = None
  ∧ (MessageRoute.POST
       (MessageRoute.mkBody (JsString (lit "nowhere")) (JsString Scenario.alpha)
          (JsString (lit "hi")))
       5 Scenario.registered).1
    = Respond 400 (JError "Conversation not found")
  ∧ failure_kind (Respond 400 (JError "Conversation not found")) = Some InvalidArgument
  ∧ ¬ unknown_conversation_is_NotFound.
Proof.
  split; [by vm_compute |]. split; [by vm_compute |]. split; [by vm_compute |].
  intros H.
  specialize (H Scenario.registered (lit "nowhere") (JsString Scenario.alpha)
                (JsString (lit "hi")) 5 ltac:(by vm_compute)).
  vm_compute in H. discriminate.
Qed.

(** C2, amended: a message to a conversation id that names no
    conversation always fails and leaves the relay state as it was. The
    answer is 404, the [NotFound] kind, exactly when the request is
    well-formed and its author is not registered; otherwise it is 400,
    the [InvalidArgument] kind, and for a well-formed request of a
    registered author it is the store's "Conversation not found" caught
    by the handler. *)
Theorem unknown_conversation_rejected body now st :
  (∀ cid, MessageRoute.body_conversationId body = JsString cid →
          conversations st !! cid = None) →
  ∃ status error,
    MessageRoute.POST body now st = (Respond status (JError error), st)
    ∧ (status = 400 ∨ status = 404)
    ∧ (status = 404 ↔ well_formed_message body = true ∧ author_registered body st = false)
    ∧ (well_formed_message body = true → author_registered body st = true →
       error = "Conversation not found"%string).
Proof.
  intros Hc. destruct body as [vc vf vt]. unfold well_formed_message, author_registered.
  unfold MessageRoute.POST; simpl in *.
  destruct (falsy (string_or_null vc) || falsy (string_or_null vf)
            || (length (MessageRoute.text_of vt) =? 0)%nat) eqn:Hbad; simpl.
  { eexists _, _. split; [reflexivity |]. split; [by left |].
    split; [| done]. split; [done | by intros [? _]]. }
  apply orb_false_elim in Hbad as [Hbad _].
  apply orb_false_elim in Hbad as [Hvc Hvf].
  destruct vc as [| | | |cid]; try done. destruct vf as [| | | |u]; try done.
  simpl. unfold getUser.
  destruct (users st !! u) as [r|] eqn:Hr; simpl.
  - unfold appendMessage. rewrite (Hc cid eq_refl).
    eexists _, _. split; [reflexivity |]. split; [by left |].
    split; [| done]. split; [done | by intros [_ ?]].
  - eexists _, _. split; [reflexivity |]. split; [by right |].
    done.
Qed.

Lemma unknown_conversation_rejected_witness :
  ∃ status error,
    MessageRoute.POST
      (MessageRoute.mkBody (JsString (lit "nowhere")) (JsString Scenario.gamma)
         (JsString (lit "hi")))
      5 Scenario.registered
    = (Respond status (JError error), Scenario.registered)
    ∧ (status = 400 ∨ status = 404)
    ∧ (status = 404 ↔
         well_formed_message
           (MessageRoute.mkBody (JsString (lit "nowhere")) (JsString Scenario.gamma)
              (JsString (lit "hi"))) = true
         ∧ author_registered
             (MessageRoute.mkBody (JsString (lit "nowhere")) (JsString Scenario.gamma)
                (JsString (lit "hi")))
             Scenario.registered = false)
    ∧ (well_formed_message
         (MessageRoute.mkBody (JsString (lit "nowhere")) (JsString Scenario.gamma)
            (JsString (lit "hi"))) = true →
       author_registered
         (MessageRoute.mkBody (JsString (lit "nowhere")) (JsString Scenario.gamma)
            (JsString (lit "hi")))
         Scenario.registered = true →
       error = "Conversation not found"%string).
Proof.
  apply unknown_conversation_rejected.
  simpl. intros cid [= <-]. vm_compute. reflexivity.
Defined.

End message_route.

Section message_truncation.

Implicit Types (st : State) (now : Z) (s cid u : jsstring).

Lemma appendMessage_success st cid r c text now :
  conversations st !! cid = Some c →
  is_Some (participants c !! uid r) →
  trim text ≠ [] →
  let m := {| msg_id := next_message st; msg_conversationId := cid;
              msg_from := Some (uid r); msg_text := text;
              msg_kind := KindMessage;
              msg_timestamp := Z.max now (updatedAt c) |} in
  appendMessage cid r text now st =
    (Return m,
     publish_all (elements (dom (participants c))) (EvMessage cid m)
       (with_next_message (N.succ (next_message st))
          (with_conversations
             (<[cid := {| conv_id := conv_id c; participants := participants c;
                          messages := messages c ++ [m];
                          updatedAt := msg_timestamp m |}]>) st))).
Proof.
  intros Hc [p Hp] Ht m. unfold appendMessage. rewrite Hc, Hp.
  by destruct (trim text).
Qed.

(** A well-formed request of a registered participant on an existing
    conversation reaches the store with the trimmed text cut to 2000
    code units. *)
Lemma message_POST_appends st cid u r s now :
  cid ≠ [] → u ≠ [] →
  users st !! u = Some r →
  trim s ≠ [] →
  MessageRoute.POST (MessageRoute.mkBody (JsString cid) (JsString u) (JsString s)) now st
  = match appendMessage cid r (slice0 2000 (trim s)) now st with
    | (Return message, st') => (Respond 200 (JMessage message), st')
    | (Throw e, st') => (Respond 400 (JError (err_message e)), st')
    end.
Proof.
  intros Hcid Hu Hr Hs. unfold MessageRoute.POST.
  cbn [MessageRoute.body_conversationId MessageRoute.body_fromUid
       MessageRoute.body_text string_or_null MessageRoute.text_of].
  replace (falsy (Some cid)) with false by (by destruct cid).
  replace (falsy (Some u)) with false by (by destruct u).
  replace (length (trim s) =? 0)%nat with false by (by destruct (trim s)).
  cbn [orb]. unfold getUser. by rewrite Hr.
Qed.

(** C10: a message whose trimmed text is longer than 2000 code units is
    not rejected: for a registered participant of an existing
    conversation the handler answers 200 and the message appended to the
    conversation carries the first 2000 code units of the trimmed text.
    The cut ignores surrogate pairs: when the 2000th code unit is a high
    surrogate, the stored text is not well-formed UTF-16. *)
Theorem long_message_truncated st cid u r c s now :
  cid ≠ [] → u ≠ [] →
  users st !! u = Some r →
  conversations st !! cid = Some c →
  is_Some (participants c !! uid r) →
  (2000 < length (trim s))%nat →
  ∃ m st' c',
    MessageRoute.POST (MessageRoute.mkBody (JsString cid) (JsString u) (JsString s)) now st
    = (Respond 200 (JMessage m), st')
    ∧ msg_text m = take 2000 (trim s)
    ∧ length (msg_text m) = 2000%nat
    ∧ conversations st' !! cid = Some c'
    ∧ messages c' = messages c ++ [m]
    ∧ (∀ h, trim s !! 1999%nat = Some h → is_high_surrogate h = true →
            isWellFormed (msg_text m) = false).
Proof.
  intros Hcid Hu Hr Hc Hp Hlen.
  assert (trim s ≠ []) as Hs by (intros E; rewrite E in Hlen; simpl in Hlen; lia).
  rewrite (message_POST_appends st cid u r s now Hcid Hu Hr Hs).
  rewrite (appendMessage_success st cid r c _ now Hc Hp)
    by (apply (trim_slice0_nonblank 1999), Hs).
  eexists _, _, _. split; [reflexivity |]. unfold slice0. cbn [msg_text].
  split; [done |]. split; [rewrite length_take; lia |].
  split.
  { match goal with |- context [publish_all ?us ?e ?s0] =>
      destruct (publish_all_frame us e s0) as (_ & -> & _) end.
    apply lookup_insert_eq. }
  split; [done |].
  intros h Hh Hhigh. rewrite (take_S_r _ _ _ Hh).
  by apply isWellFormed_lone_high.
Qed.

Lemma long_message_truncated_witness :
  ∃ m st' c',
    MessageRoute.POST
      (MessageRoute.mkBody (JsString Scenario.channel) (JsString Scenario.alpha)
         (JsString long_text))
      9 Scenario.chatting
    = (Respond 200 (JMessage m), st')
    ∧ msg_text m = take 2000 (trim long_text)
    ∧ length (msg_text m) = 2000%nat
    ∧ conversations st' !! Scenario.channel = Some c'
    ∧ messages c' =
        messages (default c' (conversations Scenario.chatting !! Scenario.channel)) ++ [m]
    ∧ (∀ h, trim long_text !! 1999%nat = Some h → is_high_surrogate h = true →
            isWellFormed (msg_text m) = false).
Proof.
  destruct (conversations Scenario.chatting !! Scenario.channel) as [c|] eqn:Hc;
    [| by vm_compute in Hc].
  apply (long_message_truncated Scenario.chatting Scenario.channel Scenario.alpha
           {| uid := Scenario.alpha; name := lit "Alpha" |} c long_text 9).
  - vm_compute. discriminate.
  - vm_compute. discriminate.
  - vm_compute. reflexivity.
  - exact Hc.
  - vm_compute in Hc. injection Hc as <-. vm_compute. eauto.
  - vm_compute. lia.
Defined.

(** The stored text of the witness really is ill-formed although the
    text sent is well-formed. *)
Example long_text_split :
  isWellFormed long_text = true
  ∧ isWellFormed (take 2000 (trim long_text)) = false.
Proof. split; by vm_compute. Qed.

End message_truncation.

(** ** Opening conversations: [/api/connect] *)

Section connect_route.

Implicit Types (st : State) (now : Z) (a b : jsstring).

Lemma conversationKey_comm a b : conversationKey a b = conversationKey b a.
Proof.
  unfold conversationKey.
  destruct (lex_leb a b) eqn:Hab, (lex_leb b a) eqn:Hba; try done.
  - by rewrite (lex_leb_antisym a b Hab Hba).
  - apply lex_leb_total in Hab. congruence.
Qed.

Lemma pair_participants_comm a b (ua ub : User) :
  a ≠ b → <[a := ua]> ({[b := ub]} : gmap jsstring User) = <[b := ub]> {[a := ua]}.
Proof. intros Hab. rewrite <- !insert_empty. by apply insert_insert_ne. Qed.

(** The handler on two well-formed ids is [ensureConversation] with its
    failures answered 400. *)
Lemma connect_POST_ensure st a b now :
  a ≠ [] → b ≠ [] →
  ConnectRoute.POST (ConnectRoute.mkBody (JsString a) (JsString b)) now st
  = match ensureConversation a b now st with
    | (Return conversation, st') => (Respond 200 (JConversation conversation), st')
    | (Throw e, st') => (Respond 400 (JError (err_message e)), st')
    end.
Proof. intros Ha Hb. by destruct a, b. Qed.

Lemma ensureConversation_existing st a b ua ub c now :
  a ≠ b → users st !! a = Some ua → users st !! b = Some ub →
  conversations st !! conversationKey a b = Some c →
  ensureConversation a b now st = (Return c, st).
Proof.
  intros Hab Ha Hb Hc. unfold ensureConversation.
  rewrite decide_False by done. by rewrite Ha, Hb, Hc.
Qed.

Lemma ensureConversation_fresh st a b ua ub now :
  a ≠ b → users st !! a = Some ua → users st !! b = Some ub →
  conversations st !! conversationKey a b = None →
  let c := {| conv_id := conversationKey a b;
              participants := <[a := ua]> {[b := ub]};
              messages := []; updatedAt := now |} in
  ∃ st', ensureConversation a b now st = (Return c, st')
         ∧ users st' = users st
         ∧ conversations st' = <[conversationKey a b := c]> (conversations st).
Proof.
  intros Hab Ha Hb Hc c. unfold ensureConversation.
  rewrite decide_False by done. rewrite Ha, Hb, Hc.
  eexists. split; [reflexivity |]. done.
Qed.

(** Whatever the state, a successful [connect] leaves the conversation it
    answers in the store under the canonical key of the pair. *)
Lemma connect_once st a b ua ub now :
  a ≠ b → users st !! a = Some ua → users st !! b = Some ub →
  ∃ c st', ensureConversation a b now st = (Return c, st')
           ∧ users st' = users st
           ∧ conversations st' !! conversationKey a b = Some c
           ∧ (∀ c0, conversations st !! conversationKey a b = Some c0 →
                    c = c0 ∧ st' = st)
           ∧ (conversations st !! conversationKey a b = None →
              conv_id c = conversationKey a b
              ∧ participants c = <[a := ua]> {[b := ub]}
              ∧ conversations st' = <[conversationKey a b := c]> (conversations st)).
Proof.
  intros Hab Ha Hb.
  destruct (conversations st !! conversationKey a b) as [c|] eqn:Hc.
  - exists c, st. rewrite (ensureConversation_existing st a b ua ub c now) by done.
    split; [done |]. split; [done |]. split; [done |].
    split; [by intros c0 [= <-] | done].
  - destruct (ensureConversation_fresh st a b ua ub now Hab Ha Hb Hc)
      as (st' & HE & Hu & Hcs).
    eexists _, st'. split; [exact HE |]. split; [done |].
    split; [rewrite Hcs; apply lookup_insert_eq |]. split; [done |]. done.
Qed.

(** C1: for two distinct registered identities, [connect] in either
    order answers 200 with a conversation of the same id and the same
    participants, and a second [connect], in either order, answers the
    very conversation of the first and leaves the relay state, so the
    set of conversations too, as the first call left it. *)
Theorem connect_symmetric_idempotent st a b ua ub now1 now2 now3 :
  a ≠ [] → b ≠ [] → a ≠ b →
  users st !! a = Some ua → users st !! b = Some ub →
  ∃ c1 c2 st1 st2,
    ConnectRoute.POST (ConnectRoute.mkBody (JsString a) (JsString b)) now1 st
    = (Respond 200 (JConversation c1), st1)
    ∧ ConnectRoute.POST (ConnectRoute.mkBody (JsString b) (JsString a)) now2 st
      = (Respond 200 (JConversation c2), st2)
    ∧ conv_id c1 = conv_id c2
    ∧ participants c1 = participants c2
    ∧ ConnectRoute.POST (ConnectRoute.mkBody (JsString a) (JsString b)) now3 st1
      = (Respond 200 (JConversation c1), st1)
    ∧ ConnectRoute.POST (ConnectRoute.mkBody (JsString b) (JsString a)) now3 st1
      = (Respond 200 (JConversation c1), st1)
    ∧ ConnectRoute.POST (ConnectRoute.mkBody (JsString a) (JsString b)) now3 st2
      = (Respond 200 (JConversation c2), st2)
    ∧ ConnectRoute.POST (ConnectRoute.mkBody (JsString b) (JsString a)) now3 st2
      = (Respond 200 (JConversation c2), st2).
Proof.
  intros Hna Hnb Hab Ha Hb.
  assert (b ≠ a) as Hba by congruence.
  destruct (connect_once st a b ua ub now1 Hab Ha Hb)
    as (c1 & st1 & H1 & Hu1 & Hk1 & Hold1 & Hnew1).
  destruct (connect_once st b a ub ua now2 Hba Hb Ha)
    as (c2 & st2 & H2 & Hu2 & Hk2 & Hold2 & Hnew2).
  exists c1, c2, st1, st2.
  rewrite !connect_POST_ensure by done.
  rewrite H1, H2.
  rewrite (ensureConversation_existing st1 a b ua ub c1 now3) by congruence.
  rewrite (ensureConversation_existing st1 b a ub ua c1 now3)
    by (rewrite ?(conversationKey_comm b a); congruence).
  rewrite (ensureConversation_existing st2 a b ua ub c2 now3)
    by (rewrite ?(conversationKey_comm a b); congruence).
  rewrite (ensureConversation_existing st2 b a ub ua c2 now3) by congruence.
  repeat split; try done.
  - rewrite (conversationKey_comm b a) in Hold2, Hnew2.
    destruct (conversations st !! conversationKey a b) as [c0|] eqn:Hc.
    + destruct (Hold1 c0 eq_refl) as [-> _], (Hold2 c0 eq_refl) as [-> _]. done.
    + destruct (Hnew1 eq_refl) as (-> & _), (Hnew2 eq_refl) as (-> & _). done.
  - rewrite (conversationKey_comm b a) in Hold2, Hnew2.
    destruct (conversations st !! conversationKey a b) as [c0|] eqn:Hc.
    + destruct (Hold1 c0 eq_refl) as [-> _], (Hold2 c0 eq_refl) as [-> _]. done.
    + destruct (Hnew1 eq_refl) as (_ & -> & _), (Hnew2 eq_refl) as (_ & -> & _).
      by apply pair_participants_comm.
Qed.

Lemma connect_symmetric_idempotent_witness :
  ∃ c1 c2 st1 st2,
    ConnectRoute.POST
      (ConnectRoute.mkBody (JsString Scenario.alpha) (JsString Scenario.beta))
      3 Scenario.registered
    = (Respond 200 (JConversation c1), st1)
    ∧ ConnectRoute.POST
        (ConnectRoute.mkBody (JsString Scenario.beta) (JsString Scenario.alpha))
        4 Scenario.registered
      = (Respond 200 (JConversation c2), st2)
    ∧ conv_id c1 = conv_id c2
    ∧ participants c1 = participants c2
    ∧ ConnectRoute.POST
        (ConnectRoute.mkBody (JsString Scenario.alpha) (JsString Scenario.beta)) 5 st1
      = (Respond 200 (JConversation c1), st1)
    ∧ ConnectRoute.POST
        (ConnectRoute.mkBody (JsString Scenario.beta) (JsString Scenario.alpha)) 5 st1
      = (Respond 200 (JConversation c1), st1)
    ∧ ConnectRoute.POST
        (ConnectRoute.mkBody (JsString Scenario.alpha) (JsString Scenario.beta)) 5 st2
      = (Respond 200 (JConversation c2), st2)
    ∧ ConnectRoute.POST
        (ConnectRoute.mkBody (JsString Scenario.beta) (JsString Scenario.alpha)) 5 st2
      = (Respond 200 (JConversation c2), st2).
Proof.
  apply (connect_symmetric_idempotent Scenario.registered Scenario.alpha Scenario.beta
           {| uid := Scenario.alpha; name := lit "Alpha" |}
           {| uid := Scenario.beta; name := lit "Beta" |} 3 4 5).
  - vm_compute. discriminate.
  - vm_compute. discriminate.
  - vm_compute. discriminate.
  - vm_compute. reflexivity.
  - vm_compute. reflexivity.
Defined.

End connect_route.

(** ** Every step is one of the transitions *)

Section steps.

Implicit Types (st : State) (now : Z).

Lemma user_POST_transition body st :
  transition st (Some (UserRoute.POST body st).1) None (UserRoute.POST body st).2.
Proof.
  destruct body as [vu vn]. unfold UserRoute.POST; simpl.
  destruct vu as [| | | |[|x u]]; simpl; try by constructor.
  unfold saveUser. destruct (users st !! (x :: u)) as [r0|]; simpl.
  - destruct (UserRoute.sanitizeName vn) as [|y n]; simpl; [by constructor |].
    by apply (t_store_identity st _ {| uid := x :: u; name := y :: n |}).
  - by apply (t_new_identity st _ {| uid := x :: u; name := UserRoute.sanitizeName vn |}).
Qed.

Lemma user_PUT_transition body st :
  transition st (Some (UserRoute.PUT body st).1) None (UserRoute.PUT body st).2.
Proof.
  destruct body as [vu vn]. unfold UserRoute.PUT; simpl.
  destruct vu as [| | | |[|x u]]; simpl; try by constructor.
  unfold renameParticipant. destruct (users st !! (x :: u)) as [r0|]; simpl.
  - by apply (t_rename st _ {| uid := x :: u; name := UserRoute.sanitizeName vn |}).
  - by constructor.
Qed.

Lemma connect_POST_transition body now st :
  transition st (Some (ConnectRoute.POST body now st).1) None
    (ConnectRoute.POST body now st).2.
Proof.
  destruct body as [va vb]. unfold ConnectRoute.POST; simpl.
  destruct va as [| | | |[|x a]]; simpl; try by constructor.
  destruct vb as [| | | |[|y b]]; simpl; try by constructor.
  unfold ensureConversation.
  destruct (decide (x :: a = y :: b)) as [|Hab]; simpl; [by constructor |].
  destruct (users st !! (x :: a)) as [ua|]; simpl; [| by constructor].
  destruct (users st !! (y :: b)) as [ub|]; simpl; [| by constructor].
  destruct (conversations st !! conversationKey (x :: a) (y :: b)) as [c|] eqn:Hc;
    simpl; [by constructor |].
  match goal with |- context [EvConversation ?c] =>
    apply (t_new_conversation st _ (x :: a) (y :: b) c) end; try done.
  simpl. rewrite dom_insert_L, dom_singleton_L. done.
Qed.

Lemma message_POST_transition body now st :
  transition st (Some (MessageRoute.POST body now st).1) None
    (MessageRoute.POST body now st).2.
Proof.
  destruct body as [vc vf vt]. unfold MessageRoute.POST.
  cbn [MessageRoute.body_conversationId MessageRoute.body_fromUid MessageRoute.body_text].
  destruct (falsy (string_or_null vc) || falsy (string_or_null vf)
            || (length (MessageRoute.text_of vt) =? 0)%nat); [by constructor |].
  destruct (string_or_null vc) as [cid|]; [| by constructor].
  destruct (string_or_null vf) as [u|]; [| by constructor].
  destruct (getUser u st) as [r|]; [| by constructor].
  unfold appendMessage.
  destruct (conversations st !! cid) as [c|] eqn:Hc; [| by constructor].
  destruct (trim (slice0 2000 (MessageRoute.text_of vt))); [by constructor |].
  destruct (participants c !! uid r); [| by constructor].
  cbn [fst snd].
  match goal with |- context [EvMessage _ ?m] =>
    apply (t_append st cid c m) end; try done.
  cbn [msg_timestamp]. lia.
Qed.

Lemma events_GET_transition uid st :
  transition st (Some (EventsRoute.GET uid st).1) None (EventsRoute.GET uid st).2.
Proof.
  unfold EventsRoute.GET. destruct uid as [[|x u]|]; simpl; try by constructor.
  apply t_open, is_fresh.
Qed.

Lemma handle_transition now r st :
  transition st (handle now r st).1 (closes r) (handle now r st).2.
Proof.
  destruct r as [body|body|body|body|uid|h|h|h]; simpl.
  - pose proof (user_POST_transition body st). by destruct (UserRoute.POST body st).
  - pose proof (user_PUT_transition body st). by destruct (UserRoute.PUT body st).
  - pose proof (connect_POST_transition body now st).
    by destruct (ConnectRoute.POST body now st).
  - pose proof (message_POST_transition body now st).
    by destruct (MessageRoute.POST body now st).
  - pose proof (events_GET_transition uid st). by destruct (EventsRoute.GET uid st).
  - apply t_cleanup.
  - unfold EventsRoute.cancel. destruct (feeds st !! h) as [f|]; [| by constructor].
    destruct (feed_closed f); [by constructor | apply t_cleanup].
  - unfold EventsRoute.keepAlive.
    destruct (feeds st !! h) as [f|] eqn:Hf; [| by constructor].
    by apply t_keepAlive.
Qed.

End steps.

(** ** Frame properties of the feed operations *)

Section feed_frame.

Implicit Types (st : State) (u : jsstring) (h : nat).

Lemma enqueue_on_fold_frame h (cs : list Conversation) st :
  let st' := foldl (λ s c, EventsRoute.enqueue_on h (Data (EvConversation c)) s) st cs in
  users st' = users st ∧ conversations st' = conversations st
  ∧ subscribers st' = subscribers st ∧ next_message st' = next_message st.
Proof.
  revert st. induction cs as [|c cs IH]; intros st; simpl; [done |].
  destruct (IH (EventsRoute.enqueue_on h (Data (EvConversation c)) st))
    as (-> & -> & -> & ->). done.
Qed.

Lemma start_frame u h st :
  users (EventsRoute.start u h st) = users st
  ∧ conversations (EventsRoute.start u h st) = conversations st
  ∧ subscribers (EventsRoute.start u h st) = <[u := {[h]} ∪ subscribers_of u st]> (subscribers st)
  ∧ next_message (EventsRoute.start u h st) = next_message st.
Proof.
  unfold EventsRoute.start.
  match goal with |- context [foldl ?f ?s0 ?cs] =>
    destruct (enqueue_on_fold_frame h cs s0) as (-> & -> & -> & ->) end.
  done.
Qed.

Lemma cleanup_frame h st :
  users (EventsRoute.cleanup h st) = users st
  ∧ conversations (EventsRoute.cleanup h st) = conversations st
  ∧ next_message (EventsRoute.cleanup h st) = next_message st.
Proof. unfold EventsRoute.cleanup. by destruct (feeds st !! h). Qed.

End feed_frame.

(** ** The conversation store stays consistent *)

Section store_invariant.

Implicit Types (st : State) (c : Conversation) (m : Message).

Lemma conversation_ok_bound (b b' : N) cid c :
  (b ≤ b')%N → conversation_ok b cid c → conversation_ok b' cid c.
Proof.
  intros Hb [H1 H2 H3 H4 H5]. split; try done.
  intros m Hm. destruct (H3 m Hm). split; [done | lia].
Qed.

Lemma conversation_ok_refresh b cid r c :
  conversation_ok b cid c → conversation_ok b cid (refresh_participant r c).
Proof.
  intros [H1 H2 H3 H4 H5]. unfold refresh_participant.
  destruct (participants c !! uid r); by split.
Qed.

Lemma timestamps_ordered_snoc (ms : list Message) m :
  timestamps_ordered ms →
  (∀ m0, m0 ∈ ms → msg_timestamp m0 ≤ msg_timestamp m) →
  timestamps_ordered (ms ++ [m]).
Proof.
  intros Hord Hle i m1 m2 H1 H2.
  destruct (decide (S i < length ms)%nat) as [Hlt|Hge].
  - rewrite lookup_app_l in H1 by lia. rewrite lookup_app_l in H2 by lia.
    by apply (Hord i).
  - assert (i < length ms)%nat as Hi.
    { apply lookup_lt_Some in H2. rewrite length_app in H2. simpl in H2. lia. }
    rewrite lookup_app_l in H1 by lia.
    rewrite lookup_app_r in H2 by lia.
    replace (S i - length ms)%nat with 0%nat in H2 by lia.
    injection H2 as <-. apply Hle. by eapply list_elem_of_lookup_2.
Qed.

Lemma conversation_ok_append cid c m b :
  conversation_ok b cid c →
  msg_id m = b → msg_conversationId m = cid → updatedAt c ≤ msg_timestamp m →
  conversation_ok (N.succ b) cid
    {| conv_id := conv_id c; participants := participants c;
       messages := messages c ++ [m]; updatedAt := msg_timestamp m |}.
Proof.
  intros [H1 H2 H3 H4 H5] Hid Hcid Hts. split; simpl.
  - done.
  - apply NoDup_app. split; [done |]. split; [| apply NoDup_singleton].
    intros m0 Hm0 ->%list_elem_of_singleton.
    destruct (H3 _ Hm0). lia.
  - intros m0 [Hm0| ->%list_elem_of_singleton]%elem_of_app.
    + destruct (H3 _ Hm0). split; [done | lia].
    + split; [done | lia].
  - apply timestamps_ordered_snoc; [done |].
    intros m0 Hm0. specialize (H5 _ Hm0). lia.
  - intros m0 [Hm0| ->%list_elem_of_singleton]%elem_of_app; [| lia].
    specialize (H5 _ Hm0). lia.
Qed.

Lemma store_ok_initial : store_ok initial_state.
Proof. intros cid c. unfold initial_state; simpl. by rewrite lookup_empty. Qed.

Lemma transition_store_ok st o k st' :
  transition st o k st' → store_ok st → store_ok st'.
Proof.
  intros Ht Hok. destruct Ht as [| | | | o a b c0 _ _ Hfresh _ Hempty
    | cid0 c0 m Hc0 Hid Hcid Hts | u h _ | h | h f _]; try done.
  - intros cid c. simpl. rewrite lookup_fmap.
    destruct (conversations st !! cid) as [c1|] eqn:Hc1; [| done].
    intros [= <-]. apply conversation_ok_refresh. by apply Hok.
  - intros cid c. simpl. rewrite lookup_fmap.
    destruct (conversations st !! cid) as [c1|] eqn:Hc1; [| done].
    intros [= <-]. apply conversation_ok_refresh. by apply Hok.
  - intros cid c. simpl. rewrite lookup_insert.
    case_decide as Hk; [| by apply Hok].
    intros [= <-]. split; try done; rewrite Hempty.
    + apply NoDup_nil_2.
    + by intros m ?%elem_of_nil.
    + by intros i m m' ?.
    + by intros m ?%elem_of_nil.
  - intros cid c.
    match goal with |- context [publish_all ?us ?e ?s0] =>
      destruct (publish_all_frame us e s0) as (_ & -> & _ & ->) end.
    simpl. rewrite lookup_insert. case_decide as Hk.
    + intros [= <-]. subst cid. apply conversation_ok_append; try done. by apply Hok.
    + intros Hc. apply (conversation_ok_bound (next_message st)); [lia | by apply Hok].
  - intros cid c.
    match goal with |- context [EventsRoute.start ?u ?h ?s0] =>
      destruct (start_frame u h s0) as (_ & -> & _ & ->) end.
    apply Hok.
  - intros cid c. destruct (cleanup_frame h st) as (_ & -> & ->). apply Hok.
Qed.

Lemma run_store_ok tr st : store_ok st → store_ok (run tr st).2.
Proof.
  revert st. induction tr as [|[now r] tr IH]; intros st Hok; simpl; [done |].
  pose proof (handle_transition now r st) as Ht.
  destruct (handle now r st) as [o st1]. simpl in Ht.
  specialize (IH st1 (transition_store_ok _ _ _ _ Ht Hok)).
  by destruct (run tr st1).
Qed.

End store_invariant.

(** ** Message logs grow with the successful sends *)

Section message_log.

Implicit Types (st : State) (n : jsstring → nat).

Lemma sends_on_cons cid o os :
  sends_on cid (o :: os) = (sends_on cid [o] + sends_on cid os)%nat.
Proof.
  unfold sends_on. rewrite !filter_cons, filter_nil.
  by case_decide.
Qed.

Lemma sends_on_quiet cid o : message_sent o = None → sends_on cid [o] = 0%nat.
Proof.
  intros Ho. unfold sends_on. rewrite filter_cons, filter_nil.
  case_decide as H; [| done]. by rewrite Ho in H.
Qed.

Lemma sends_on_sent cid m :
  sends_on cid [Some (Respond 200 (JMessage m))]
  = if decide (msg_conversationId m = cid) then 1%nat else 0%nat.
Proof.
  unfold sends_on. rewrite filter_cons, filter_nil.
  assert (message_sent (Some (Respond 200 (JMessage m))) = Some m) as -> by done.
  repeat case_decide; simpl in *; congruence.
Qed.

Lemma log_ok_quiet n st st' o :
  conversations st' = conversations st ∨
    (∃ r, conversations st' = refresh_participant r <$> conversations st) →
  message_sent o = None →
  log_ok n st → log_ok (λ cid, (n cid + sends_on cid [o])%nat) st'.
Proof.
  intros Hcs Ho Hlog cid. rewrite (sends_on_quiet cid o Ho), Nat.add_0_r.
  specialize (Hlog cid). destruct Hcs as [-> | [r ->]]; [done |].
  rewrite lookup_fmap. destruct (conversations st !! cid) as [c|]; simpl; [| done].
  unfold refresh_participant. by destruct (participants c !! uid r).
Qed.

Lemma transition_log_ok st o k st' n :
  transition st o k st' → log_ok n st →
  log_ok (λ cid, (n cid + sends_on cid [o])%nat) st'.
Proof.
  intros Ht Hlog. destruct Ht as [o k Ho | o r Ho | o r Ho | o r Ho
    | o a b c0 Ho _ Hfresh _ Hempty
    | cid0 c0 m Hc0 Hid Hcid Hts | u h _ | h | h f _].
  - apply (log_ok_quiet n st); auto.
  - apply (log_ok_quiet n st); auto.
  - apply (log_ok_quiet n st); eauto.
  - apply (log_ok_quiet n st); eauto.
  - intros cid. rewrite (sends_on_quiet cid o Ho), Nat.add_0_r. simpl.
    specialize (Hlog cid). rewrite lookup_insert. case_decide as Hk; [| done].
    subst cid. rewrite Hfresh in Hlog. by rewrite Hempty.
  - intros cid. rewrite sends_on_sent, Hcid.
    match goal with |- context [publish_all ?us ?e ?s0] =>
      destruct (publish_all_frame us e s0) as (_ & -> & _) end.
    simpl. specialize (Hlog cid). rewrite lookup_insert.
    case_decide as Hk.
    + subst cid. rewrite Hc0 in Hlog. simpl. rewrite length_app. simpl. lia.
    + destruct (conversations st !! cid); lia.
  - apply (log_ok_quiet n st); [| done | done]. left.
    match goal with |- context [EventsRoute.start ?u ?h ?s0] =>
      destruct (start_frame u h s0) as (_ & -> & _) end.
    done.
  - apply (log_ok_quiet n st); [| done | done]. left.
    by destruct (cleanup_frame h st) as (_ & -> & _).
  - apply (log_ok_quiet n st); auto.
Qed.

Lemma run_log_ok tr st n :
  log_ok n st → log_ok (λ cid, (n cid + sends_on cid (run tr st).1)%nat) (run tr st).2.
Proof.
  revert st n. induction tr as [|[now r] tr IH]; intros st n Hlog; simpl.
  - intros cid. specialize (Hlog cid). unfold sends_on. simpl.
    rewrite Nat.add_0_r. done.
  - pose proof (handle_transition now r st) as Ht.
    destruct (handle now r st) as [o st1]. simpl in Ht.
    specialize (IH st1 _ (transition_log_ok _ _ _ _ n Ht Hlog)).
    destruct (run tr st1) as [os st2]. simpl in *.
    intros cid. specialize (IH cid). rewrite sends_on_cons.
    destruct (conversations st2 !! cid); lia.
Qed.

(** C3: in every run of the relay, the messages stored in a conversation
    stand in the order they were appended, each with a timestamp at least
    that of the message before it, and there are exactly as many of them
    as there were successful sends on that conversation: every
    successful send adds one message and nothing else adds any. *)
Theorem messages_append_order tr cid c :
  conversations (run tr initial_state).2 !! cid = Some c →
  timestamps_ordered (messages c)
  ∧ length (messages c) = sends_on cid (run tr initial_state).1.
Proof.
  intros Hc. split.
  - apply (ok_ordered (next_message (run tr initial_state).2) cid).
    by apply (run_store_ok tr initial_state store_ok_initial).
  - pose proof (run_log_ok tr initial_state (λ _, 0%nat)) as Hlog.
    specialize (Hlog (λ cid0, eq_refl) cid). rewrite Hc in Hlog. done.
Qed.

End message_log.

(** ** Publication and the subscription registry *)

Section publication.

Implicit Types (st : State) (u : jsstring) (h : nat) (e : ServerEvent).

Lemma deliver_shape e (f : Feed) :
  feed_uid (deliver e f) = feed_uid f ∧ feed_closed (deliver e f) = feed_closed f.
Proof. unfold deliver, enqueue. by destruct (feed_closed f) eqn:Hf. Qed.

Lemma deliver_open e (f : Feed) :
  feed_closed f = false → feed_queue (deliver e f) = feed_queue f ++ [Data e].
Proof. intros Hf. unfold deliver, enqueue. by rewrite Hf. Qed.

Lemma publish_lookup u e st h :
  feeds (publish u e st) !! h =
    (λ f, if decide (h ∈ subscribers_of u st) then deliver e f else f) <$> feeds st !! h.
Proof.
  unfold publish; simpl. rewrite map_lookup_imap.
  by destruct (feeds st !! h).
Qed.

Lemma publish_subscribers_of u u' e st :
  subscribers_of u' (publish u e st) = subscribers_of u' st.
Proof. reflexivity. Qed.

Lemma publish_subscriptions_ok u e st :
  subscriptions_ok st → subscriptions_ok (publish u e st).
Proof.
  intros Hok u' h Hh. rewrite publish_subscribers_of in Hh.
  destruct (Hok u' h Hh) as (f & Hf & Hu & Hc).
  rewrite publish_lookup, Hf. simpl. eexists. split; [done |].
  case_decide; [| done]. destruct (deliver_shape e f) as [-> ->]. done.
Qed.

Lemma publish_feed_live u e st h u0 :
  feed_live h u0 st → feed_live h u0 (publish u e st).
Proof.
  intros (f & Hf & Hu & Hc & Hs). unfold feed_live.
  rewrite publish_lookup, Hf. simpl. eexists. split; [done |].
  case_decide; [| done]. destruct (deliver_shape e f) as [-> ->]. done.
Qed.

Lemma publish_queue u e st h u0 :
  subscriptions_ok st → feed_live h u0 st →
  queue_of h (publish u e st) = queue_of h st ++ published_to u0 [u] e.
Proof.
  intros Hok (f & Hf & Hu & Hc & Hs). unfold queue_of, published_to.
  rewrite publish_lookup, Hf. simpl.
  destruct (decide (u = u0)) as [->|Hne].
  - rewrite decide_True by done. by rewrite deliver_open.
  - rewrite decide_False; [by rewrite app_nil_r |].
    intros Hin. destruct (Hok u h Hin) as (f' & Hf' & Hu' & _). congruence.
Qed.

Lemma publish_all_wiring us e st h u0 :
  subscriptions_ok st → feed_live h u0 st →
  subscriptions_ok (publish_all us e st)
  ∧ feed_live h u0 (publish_all us e st)
  ∧ queue_of h (publish_all us e st) = queue_of h st ++ published_to u0 us e.
Proof.
  revert st. induction us as [|u us IH]; intros st Hok Hlive; simpl.
  - by rewrite app_nil_r.
  - destruct (IH (publish u e st)) as (H1 & H2 & H3).
    { by apply publish_subscriptions_ok. }
    { by apply publish_feed_live. }
    split; [done |]. split; [done |].
    rewrite H3, (publish_queue u e st h u0) by done.
    unfold published_to. csimpl. rewrite app_nil_r. by rewrite <- app_assoc.
Qed.

Lemma publish_all_subscriptions_ok us e st :
  subscriptions_ok st → subscriptions_ok (publish_all us e st).
Proof.
  revert st. induction us as [|u us IH]; intros st Hok; simpl; [done |].
  by apply IH, publish_subscriptions_ok.
Qed.

(** Publishing to a duplicate-free list of identities reaches a live
    feed once if its identity is among them and not at all otherwise. *)
Lemma published_to_NoDup u us e :
  NoDup us → published_to u us e = if decide (u ∈ us) then [Data e] else [].
Proof.
  unfold published_to. induction 1 as [|u' us Hu' Hnd IH].
  - done.
  - csimpl. rewrite IH. destruct (decide (u' = u)) as [->|Hne].
    + rewrite (decide_True (P := u ∈ u :: us)) by apply list_elem_of_here.
      by rewrite decide_False.
    + destruct (decide (u ∈ us)) as [Hin|Hnin]; simpl.
      * by rewrite decide_True by (by apply list_elem_of_further).
      * rewrite decide_False; [done |]. intros [?|?]%elem_of_cons; congruence.
Qed.

End publication.

(** ** Opening and closing feeds *)

Section feed_lifecycle.

Implicit Types (st : State) (u : jsstring) (h : nat).

Lemma enqueue_on_lookup h (chunk : Chunk) st (f : Feed) :
  feeds st !! h = Some f → feed_closed f = false →
  feeds (EventsRoute.enqueue_on h chunk st)
  = <[h := {| feed_uid := feed_uid f; feed_queue := feed_queue f ++ [chunk];
              feed_closed := false |}]> (feeds st).
Proof.
  intros Hf Hc. unfold EventsRoute.enqueue_on; simpl.
  apply map_eq. intros h'. rewrite lookup_alter, lookup_insert.
  case_decide as Hh; [| done]. subst h'. rewrite Hf. simpl.
  unfold enqueue. by rewrite Hc.
Qed.

Lemma enqueue_on_fold h (cs : list Conversation) st (f : Feed) :
  feeds st !! h = Some f → feed_closed f = false →
  feeds (foldl (λ s c, EventsRoute.enqueue_on h (Data (EvConversation c)) s) st cs)
  = <[h := {| feed_uid := feed_uid f;
              feed_queue := feed_queue f ++ ((λ c, Data (EvConversation c)) <$> cs);
              feed_closed := false |}]> (feeds st).
Proof.
  revert st f. induction cs as [|c cs IH]; intros st f Hf Hc; simpl.
  - rewrite app_nil_r. symmetry. apply insert_id. rewrite Hf. f_equal.
    destruct f; simpl in *; by subst.
  - erewrite IH; [| rewrite (enqueue_on_lookup h _ st f Hf Hc); apply lookup_insert_eq | done].
    rewrite (enqueue_on_lookup h _ st f Hf Hc). simpl.
    rewrite insert_insert_eq, <- app_assoc. done.
Qed.

(** The feed a [GET] opens holds the greeting and then the snapshot. *)
Lemma start_feeds u h st :
  feeds (EventsRoute.start u h
           (with_feeds (<[h := {| feed_uid := u; feed_queue := []; feed_closed := false |}]>) st))
  = <[h := {| feed_uid := u;
              feed_queue := Data (EvHello u)
                            :: ((λ c, Data (EvConversation c)) <$> listConversationsForUser u st);
              feed_closed := false |}]> (feeds st).
Proof.
  unfold EventsRoute.start.
  set (new := {| feed_uid := u; feed_queue := []; feed_closed := false |}).
  set (st1 := subscribeToUser u h (with_feeds (<[h := new]>) st)).
  assert (feeds st1 !! h = Some new) as H1 by (simpl; apply lookup_insert_eq).
  pose proof (enqueue_on_lookup h (Data (EvHello u)) st1 new H1 eq_refl) as H2.
  assert (feeds (EventsRoute.enqueue_on h (Data (EvHello u)) st1) !! h
          = Some {| feed_uid := u; feed_queue := [Data (EvHello u)]; feed_closed := false |})
    as H3 by (rewrite H2; apply lookup_insert_eq).
  rewrite (enqueue_on_fold h _ _ _ H3 eq_refl), H2. simpl.
  by rewrite !insert_insert_eq.
Qed.

Lemma start_subscribers_of u h st u' :
  subscribers_of u' (EventsRoute.start u h st)
  = if decide (u = u') then {[h]} ∪ subscribers_of u st else subscribers_of u' st.
Proof.
  unfold subscribers_of at 1.
  destruct (start_frame u h st) as (_ & _ & -> & _).
  rewrite lookup_insert. by case_decide.
Qed.

Lemma cleanup_subscribers_of h st (f : Feed) u' :
  feeds st !! h = Some f →
  subscribers_of u' (EventsRoute.cleanup h st)
  = if decide (feed_uid f = u') then subscribers_of u' st ∖ {[h]} else subscribers_of u' st.
Proof.
  intros Hf. unfold EventsRoute.cleanup. rewrite Hf.
  unfold subscribers_of at 1. simpl. rewrite lookup_insert.
  case_decide; [by subst | done].
Qed.

Lemma cleanup_feeds h st (f : Feed) :
  feeds st !! h = Some f →
  feeds (EventsRoute.cleanup h st)
  = <[h := {| feed_uid := feed_uid f; feed_queue := feed_queue f; feed_closed := true |}]>
      (feeds st).
Proof. intros Hf. unfold EventsRoute.cleanup. by rewrite Hf. Qed.

Lemma cleanup_absent h st : feeds st !! h = None → EventsRoute.cleanup h st = st.
Proof. intros Hf. unfold EventsRoute.cleanup. by rewrite Hf. Qed.

Lemma subscriptions_ok_initial : subscriptions_ok initial_state.
Proof. intros u h. unfold subscribers_of, initial_state; simpl. rewrite lookup_empty. set_solver. Qed.

Lemma transition_subscriptions_ok st o k st' :
  transition st o k st' → subscriptions_ok st → subscriptions_ok st'.
Proof.
  intros Ht Hok. destruct Ht as [| | | o r _ | o a b c0 _ _ _ _ _
    | cid0 c0 m _ _ _ _ | u h Hfresh | h | h f Hf]; try done.
  - by apply publish_subscriptions_ok.
  - by do 2 apply publish_subscriptions_ok.
  - by apply publish_all_subscriptions_ok.
  - intros u' h' Hh'. rewrite start_subscribers_of in Hh'. rewrite start_feeds.
    assert (subscribers_of u (with_feeds (<[h := {| feed_uid := u; feed_queue := [];
              feed_closed := false |}]>) st) = subscribers_of u st) as Hs by done.
    assert (subscribers_of u' (with_feeds (<[h := {| feed_uid := u; feed_queue := [];
              feed_closed := false |}]>) st) = subscribers_of u' st) as Hs' by done.
    rewrite Hs, Hs' in Hh'. rewrite lookup_insert.
    destruct (decide (h = h')) as [<-|Hne].
    + eexists. split; [done |]. simpl. split; [| done].
      case_decide as Hu; [done |].
      destruct (Hok u' h Hh') as (f & Hf & _). apply not_elem_of_dom in Hfresh. congruence.
    + apply Hok. case_decide as Hu; [| done]. subst u'.
      apply elem_of_union in Hh' as [Hh'%elem_of_singleton|Hh']; [congruence | done].
  - destruct (feeds st !! h) as [f|] eqn:Hf; [| by rewrite cleanup_absent].
    intros u' h' Hh'. rewrite (cleanup_subscribers_of h st f u' Hf) in Hh'.
    rewrite (cleanup_feeds h st f Hf), lookup_insert.
    destruct (decide (feed_uid f = u')) as [Hu|Hu].
    + apply elem_of_difference in Hh' as [Hh' Hne].
      rewrite decide_False by (intros ->; by apply Hne, elem_of_singleton).
      by apply Hok.
    + destruct (Hok u' h' Hh') as (f' & Hf' & Hu' & Hc').
      rewrite decide_False by congruence. eauto.
  - intros u' h' Hh'. destruct (Hok u' h' Hh') as (f' & Hf' & Hu' & Hc').
    simpl. rewrite lookup_insert. case_decide as Hh; [| eauto].
    subst h'. assert (f' = f) as -> by congruence.
    eexists. split; [done |]. unfold enqueue. rewrite Hc'. done.
Qed.

Lemma run_subscriptions_ok tr st : subscriptions_ok st → subscriptions_ok (run tr st).2.
Proof.
  revert st. induction tr as [|[now r] tr IH]; intros st Hok; simpl; [done |].
  pose proof (handle_transition now r st) as Ht.
  destruct (handle now r st) as [o st1]. simpl in Ht.
  specialize (IH st1 (transition_subscriptions_ok _ _ _ _ Ht Hok)).
  by destruct (run tr st1).
Qed.

End feed_lifecycle.

(** ** A live feed stays in step with the store *)

Section feed_sync.

Implicit Types (st : State) (u : jsstring) (h : nat) (q : list Chunk).

Lemma delivered_conversations_app q q' :
  delivered_conversations (q ++ q') = delivered_conversations q ++ delivered_conversations q'.
Proof. apply bind_app. Qed.

Lemma delivered_messages_app q q' :
  delivered_messages (q ++ q') = delivered_messages q ++ delivered_messages q'.
Proof. apply bind_app. Qed.

Lemma published_to_cases u us e :
  NoDup us → published_to u us e = [Data e] ∧ u ∈ us ∨ published_to u us e = [] ∧ u ∉ us.
Proof.
  intros Hnd. rewrite (published_to_NoDup u us e Hnd).
  destruct (decide (u ∈ us)); auto.
Qed.

Lemma refresh_participates r (c : Conversation) u :
  participates u (refresh_participant r c) ↔ participates u c.
Proof.
  unfold participates, refresh_participant.
  destruct (participants c !! uid r) as [r0|] eqn:Hr; [| done]. simpl.
  rewrite lookup_insert. case_decide as Hu; [| done].
  subst u. rewrite Hr. split; eauto.
Qed.

Lemma refresh_messages r (c : Conversation) :
  messages (refresh_participant r c) = messages c.
Proof. unfold refresh_participant. by destruct (participants c !! uid r). Qed.

Lemma participates_dom u (c : Conversation) :
  participates u c ↔ u ∈ elements (dom (participants c)).
Proof. unfold participates. by rewrite elem_of_elements, elem_of_dom. Qed.

(** A step that sends the feed neither a conversation nor a message,
    and leaves the conversations of its identity and their messages as
    they are, keeps the feed in step. *)
Lemma feed_synced_frame h u st st' :
  feed_synced h u st →
  feed_live h u st' →
  delivered_conversations (queue_of h st') = delivered_conversations (queue_of h st) →
  delivered_messages (queue_of h st') = delivered_messages (queue_of h st) →
  (next_message st ≤ next_message st')%N →
  (∀ cid, is_Some (conversations st !! cid) → is_Some (conversations st' !! cid)) →
  (∀ cid c', conversations st' !! cid = Some c' → participates u c' →
             ∃ c, conversations st !! cid = Some c ∧ participates u c
                  ∧ messages c' = messages c) →
  feed_synced h u st'.
Proof.
  intros [_ H1 H2 H3 H4 H5 H6] Hlive Hdc Hdm Hnext Hsome Hold.
  split; rewrite ?Hdc, ?Hdm; try done.
  - intros cid Hcid. by apply Hsome, H2.
  - intros cid c' Hc' Hp. destruct (Hold cid c' Hc' Hp) as (c & Hc & Hpc & _). eauto.
  - intros m Hm. specialize (H5 m Hm). lia.
  - intros cid c' m Hc' Hp Hm. destruct (Hold cid c' Hc' Hp) as (c & Hc & Hpc & Hms).
    rewrite Hms in Hm. eauto.
Qed.

(** Storing an identity record changes no participation and no message. *)
Lemma feed_synced_refresh h u st r :
  feed_synced h u st →
  feed_live h u (store_identity r st) →
  delivered_conversations (queue_of h (store_identity r st))
    = delivered_conversations (queue_of h st) →
  delivered_messages (queue_of h (store_identity r st))
    = delivered_messages (queue_of h st) →
  feed_synced h u (store_identity r st).
Proof.
  intros Hs Hlive Hdc Hdm. apply (feed_synced_frame h u st); try done.
  - intros cid [c Hc]. simpl. rewrite lookup_fmap, Hc. eauto.
  - intros cid c'. simpl. rewrite lookup_fmap.
    destruct (conversations st !! cid) as [c|] eqn:Hc; [| done].
    intros [= <-] Hp. exists c. split; [done |].
    split; [by apply refresh_participates in Hp | apply refresh_messages].
Qed.

Lemma delivered_user_event a n :
  delivered_conversations [Data (EvUser a n)] = []
  ∧ delivered_messages [Data (EvUser a n)] = [].
Proof. done. Qed.

(** The feed is told of a conversation of its identity that is created. *)
Lemma feed_synced_new_conversation h u st a b (c : Conversation) :
  store_ok st → subscriptions_ok st → feed_synced h u st →
  a ≠ b → conversations st !! conv_id c = None →
  dom (participants c) = {[a; b]} → messages c = [] →
  feed_synced h u
    (publish b (EvConversation c)
       (publish a (EvConversation c) (with_conversations (<[conv_id c := c]>) st))).
Proof.
  intros Hstore Hsubs Hs Hab Hfresh Hdom Hempty.
  set (st1 := with_conversations (<[conv_id c := c]>) st).
  change (feed_synced h u (publish_all [a; b] (EvConversation c) st1)).
  assert (subscriptions_ok st1) as Hsubs1 by exact Hsubs.
  assert (feed_live h u st1) as Hlive1 by exact (synced_live h u st Hs).
  destruct (publish_all_wiring [a; b] (EvConversation c) st1 h u Hsubs1 Hlive1)
    as (_ & Hlive & Hq).
  assert (queue_of h st1 = queue_of h st) as Hq1 by done. rewrite Hq1 in Hq.
  destruct (publish_all_frame [a; b] (EvConversation c) st1) as (_ & Hcs & _ & Hnext).
  assert (NoDup [a; b]) as Hnd.
  { apply NoDup_cons. split; [by intros ->%list_elem_of_singleton |]. apply NoDup_singleton. }
  assert (∀ c1, participates u c1 → c1 = c → u ∈ [a; b]) as Hpart.
  { intros c1 Hp ->. apply participates_dom in Hp. rewrite Hdom in Hp.
    apply elem_of_elements in Hp.
    apply elem_of_union in Hp as [Hp%elem_of_singleton|Hp%elem_of_singleton]; subst.
    - apply list_elem_of_here.
    - apply list_elem_of_further, list_elem_of_here. }
  destruct Hs as [_ H1 H2 H3 H4 H5 H6].
  destruct (published_to_cases u [a; b] (EvConversation c) Hnd) as [[Hpub Hin]|[Hpub Hnin]];
    rewrite Hpub in Hq.
  - split; rewrite ?Hq, ?Hcs, ?Hnext, ?delivered_conversations_app, ?delivered_messages_app;
      simpl; rewrite ?Hempty, ?app_nil_r; try done.
    + apply NoDup_app. split; [done |]. split; [| apply NoDup_singleton].
      intros cid Hcid ->%list_elem_of_singleton.
      destruct (H2 _ Hcid) as [? ?]. congruence.
    + intros cid [Hcid| ->%list_elem_of_singleton]%elem_of_app.
      * rewrite lookup_insert. case_decide; [eauto | by apply H2].
      * rewrite lookup_insert_eq. eauto.
    + intros cid c1. rewrite lookup_insert. case_decide as Hk.
      * intros _ _. subst cid. apply elem_of_app. right. apply list_elem_of_here.
      * intros Hc1 Hp. apply elem_of_app. left. eauto.
    + intros cid c1 m. rewrite lookup_insert. case_decide as Hk.
      * intros [= <-] _. rewrite Hempty. by intros ?%elem_of_nil.
      * eauto.
  - apply (feed_synced_frame h u st); rewrite ?Hq, ?Hcs, ?Hnext, ?app_nil_r; try done.
    + intros cid Hcid. simpl. rewrite lookup_insert. case_decide; [eauto | done].
    + intros cid c1. simpl. rewrite lookup_insert. case_decide as Hk.
      * intros [= <-] Hp. destruct Hnin. by apply (Hpart c).
      * intros Hc1 Hp. eauto.
Qed.

(** The feed is sent a message appended to a conversation of its
    identity, and no other. *)
Lemma feed_synced_append h u st cid (c : Conversation) (m : Message) :
  store_ok st → subscriptions_ok st → feed_synced h u st →
  conversations st !! cid = Some c → msg_id m = next_message st →
  feed_synced h u
    (publish_all (elements (dom (participants c))) (EvMessage cid m)
       (with_next_message (N.succ (next_message st))
          (with_conversations
             (<[cid := {| conv_id := conv_id c; participants := participants c;
                          messages := messages c ++ [m];
                          updatedAt := msg_timestamp m |}]>) st))).
Proof.
  intros Hstore Hsubs Hs Hc Hid.
  match goal with |- context [publish_all ?us ?e ?s0] =>
    set (st1 := s0); set (ps := us) end.
  assert (subscriptions_ok st1) as Hsubs1 by exact Hsubs.
  assert (feed_live h u st1) as Hlive1 by exact (synced_live h u st Hs).
  destruct (publish_all_wiring ps (EvMessage cid m) st1 h u Hsubs1 Hlive1)
    as (_ & Hlive & Hq).
  assert (queue_of h st1 = queue_of h st) as Hq1 by done. rewrite Hq1 in Hq.
  destruct (publish_all_frame ps (EvMessage cid m) st1) as (_ & Hcs & _ & Hnext).
  destruct Hs as [_ H1 H2 H3 H4 H5 H6].
  destruct (published_to_cases u ps (EvMessage cid m) (NoDup_elements _))
    as [[Hpub Hin]|[Hpub Hnin]]; rewrite Hpub in Hq.
  - apply participates_dom in Hin.
    split; rewrite ?Hq, ?Hcs, ?Hnext, ?delivered_conversations_app, ?delivered_messages_app;
      simpl; rewrite ?app_nil_r; try done.
    + intros cid0 Hcid0. rewrite lookup_insert. case_decide; [eauto | by apply H2].
    + intros cid0 c1. rewrite lookup_insert. case_decide as Hk.
      * intros _ _. subst cid0. eauto.
      * eauto.
    + apply NoDup_app. split; [done |]. split; [| apply NoDup_singleton].
      intros m0 Hm0 ->%list_elem_of_singleton. specialize (H5 _ Hm0). lia.
    + intros m0 [Hm0| ->%list_elem_of_singleton]%elem_of_app.
      * specialize (H5 _ Hm0). lia.
      * lia.
    + intros cid0 c1 m0. rewrite lookup_insert. case_decide as Hk.
      * intros [= <-] _. simpl. subst cid0.
        intros [Hm0| ->%list_elem_of_singleton]%elem_of_app; apply elem_of_app.
        -- left. eauto.
        -- right. apply list_elem_of_here.
      * intros Hc1 Hp Hm0. apply elem_of_app. left. eauto.
  - apply (feed_synced_frame h u st); rewrite ?Hq, ?Hcs, ?Hnext, ?app_nil_r; try done.
    + simpl. lia.
    + intros cid0 Hcid0. simpl. rewrite lookup_insert. case_decide; [eauto | done].
    + intros cid0 c1. simpl. rewrite lookup_insert. case_decide as Hk.
      * intros [= <-] Hp. destruct Hnin. by apply participates_dom.
      * intros Hc1 Hp. eauto.
Qed.

Lemma conversations_kept st st' u :
  conversations st' = conversations st →
  (∀ cid, is_Some (conversations st !! cid) → is_Some (conversations st' !! cid))
  ∧ (∀ cid c', conversations st' !! cid = Some c' → participates u c' →
               ∃ c, conversations st !! cid = Some c ∧ participates u c
                    ∧ messages c' = messages c).
Proof. intros ->. split; [done |]. intros cid c' Hc' Hp. eauto. Qed.

(** No step other than the feed's own disconnect puts it out of step. *)
Lemma transition_feed_synced st o k st' h u :
  transition st o k st' → k ≠ Some h →
  store_ok st → subscriptions_ok st →
  feed_synced h u st → feed_synced h u st'.
Proof.
  intros Ht Hk Hstore Hsubs Hs.
  pose proof (synced_live h u st Hs) as Hlive.
  destruct Ht as [| o r _ | o r _ | o r _ | o a b c0 _ Hab Hfresh Hdom Hempty
    | cid0 c0 m Hc0 Hid _ _ | u' h' Hfresh | h' | h' f Hf]; try done.
  - destruct (conversations_kept st (with_users (<[uid r := r]>) st) u eq_refl).
    by apply (feed_synced_frame h u st).
  - by apply feed_synced_refresh.
  - assert (feed_synced h u (store_identity r st)) as Hs1 by (by apply feed_synced_refresh).
    set (e := EvUser (uid r) (name r)).
    assert (subscriptions_ok (store_identity r st)) as Hsubs1 by exact Hsubs.
    assert (feed_live h u (store_identity r st)) as Hlive1 by exact Hlive.
    pose proof (publish_queue (uid r) e _ h u Hsubs1 Hlive1) as Hq.
    destruct (conversations_kept (store_identity r st)
                (publish (uid r) e (store_identity r st)) u eq_refl).
    apply (feed_synced_frame h u (store_identity r st)); try done.
    + by apply publish_feed_live.
    + rewrite Hq, delivered_conversations_app.
      destruct (published_to_cases u [uid r] e (NoDup_singleton _)) as [[-> _]|[-> _]];
        simpl; by rewrite app_nil_r.
    + rewrite Hq, delivered_messages_app.
      destruct (published_to_cases u [uid r] e (NoDup_singleton _)) as [[-> _]|[-> _]];
        simpl; by rewrite app_nil_r.
  - by apply feed_synced_new_conversation.
  - by apply feed_synced_append.
  - destruct Hlive as (f & Hf & Hu & Hc & Hin).
    assert (h' ≠ h) as Hne.
    { intros ->. apply not_elem_of_dom in Hfresh. congruence. }
    set (st0 := with_feeds (<[h' := {| feed_uid := u'; feed_queue := [];
                                       feed_closed := false |}]>) st).
    destruct (start_frame u' h' st0) as (_ & Hcs & _ & Hnext).
    assert (feeds (EventsRoute.start u' h' st0) !! h = Some f) as Hf'.
    { unfold st0. rewrite start_feeds, lookup_insert_ne by done. done. }
    assert (queue_of h (EventsRoute.start u' h' st0) = queue_of h st) as Hq.
    { unfold queue_of. by rewrite Hf', Hf. }
    destruct (conversations_kept st (EventsRoute.start u' h' st0) u Hcs).
    apply (feed_synced_frame h u st); rewrite ?Hq, ?Hnext; try done.
    exists f. split; [done |]. split; [done |]. split; [done |].
    rewrite start_subscribers_of. case_decide as Hu'; [| done].
    subst u'. apply elem_of_union. by right.
  - assert (h' ≠ h) as Hne by congruence.
    destruct (feeds st !! h') as [f'|] eqn:Hf'; [| by rewrite cleanup_absent].
    destruct Hlive as (f & Hf & Hu & Hc & Hin).
    destruct (cleanup_frame h' st) as (_ & Hcs & Hnext).
    assert (feeds (EventsRoute.cleanup h' st) !! h = Some f) as Hf2.
    { rewrite (cleanup_feeds h' st f' Hf'), lookup_insert_ne by done. done. }
    assert (queue_of h (EventsRoute.cleanup h' st) = queue_of h st) as Hq.
    { unfold queue_of. by rewrite Hf2, Hf. }
    destruct (conversations_kept st (EventsRoute.cleanup h' st) u Hcs).
    apply (feed_synced_frame h u st); rewrite ?Hq, ?Hnext; try done.
    exists f. split; [done |]. split; [done |]. split; [done |].
    rewrite (cleanup_subscribers_of h' st f' u Hf'). case_decide; [| done].
    apply elem_of_difference. split; [done |].
    intros ?%elem_of_singleton. congruence.
  - destruct Hlive as (f0 & Hf0 & Hu & Hc & Hin).
    set (st1 := with_feeds (<[h' := default f (enqueue Ping f)]>) st).
    destruct (conversations_kept st st1 u eq_refl).
    destruct (decide (h' = h)) as [->|Hne].
    + assert (f = f0) as -> by congruence.
      assert (queue_of h st1 = queue_of h st ++ [Ping]) as Hq.
      { unfold queue_of, st1; simpl. rewrite lookup_insert_eq, Hf0. simpl.
        unfold enqueue. by rewrite Hc. }
      apply (feed_synced_frame h u st);
        rewrite ?Hq, ?delivered_conversations_app, ?delivered_messages_app; simpl;
        rewrite ?app_nil_r; try done.
      eexists. split; [apply lookup_insert_eq |].
      unfold enqueue. rewrite Hc. simpl. done.
    + assert (queue_of h st1 = queue_of h st) as Hq.
      { unfold queue_of, st1; simpl. by rewrite lookup_insert_ne. }
      apply (feed_synced_frame h u st); rewrite ?Hq; try done.
      exists f0. split; [| done]. simpl. by rewrite lookup_insert_ne.
Qed.

End feed_sync.

(** ** The snapshot of a feed *)

Section snapshot.

Implicit Types (st : State) (u : jsstring) (h : nat) (c : Conversation).

Lemma occurrences_app {A} `{EqDecision A} (x : A) (l l' : list A) :
  occurrences x (l ++ l') = (occurrences x l + occurrences x l')%nat.
Proof. unfold occurrences. by rewrite filter_app, length_app. Qed.

Lemma occurrences_absent {A} `{EqDecision A} (x : A) (l : list A) :
  x ∉ l → occurrences x l = 0%nat.
Proof.
  unfold occurrences. induction l as [|y l IH]; [done |].
  intros Hx. apply not_elem_of_cons in Hx as [Hne Hx].
  rewrite filter_cons. rewrite decide_False by done. by apply IH.
Qed.

Lemma occurrences_once {A} `{EqDecision A} (x : A) (l : list A) :
  NoDup l → x ∈ l → occurrences x l = 1%nat.
Proof.
  induction 1 as [|y l Hy Hnd IH]; [by intros ?%elem_of_nil |].
  intros Hx. change (y :: l) with ([y] ++ l). rewrite occurrences_app.
  apply elem_of_cons in Hx as [->|Hx].
  - rewrite (occurrences_absent y l Hy). unfold occurrences.
    rewrite filter_cons, decide_True by done. done.
  - rewrite (IH Hx). unfold occurrences.
    rewrite filter_cons, decide_False; [done |]. by intros ->.
Qed.

Lemma elem_of_listConversationsForUser u st c :
  c ∈ listConversationsForUser u st
  ↔ participates u c ∧ ∃ cid, conversations st !! cid = Some c.
Proof.
  unfold listConversationsForUser. rewrite list_elem_of_filter, list_elem_of_fmap.
  split; intros [Hp Hc]; (split; [done |]).
  - destruct Hc as ([cid c'] & -> & Hin). exists cid. by apply elem_of_map_to_list.
  - destruct Hc as [cid Hc]. exists (cid, c). split; [done |]. by apply elem_of_map_to_list.
Qed.

Lemma filter_snd_fmap {K} (P : Conversation → Prop) `{∀ c, Decision (P c)}
    (l : list (K * Conversation)) :
  filter P l.*2 = (filter (λ kc, P kc.2) l).*2.
Proof.
  induction l as [|[k c] l IH]; [done |]. csimpl.
  rewrite !filter_cons. simpl. destruct (decide (P c)); csimpl; by rewrite IH.
Qed.

(** The snapshot lists the conversations of the identity, each once. *)
Lemma listConversationsForUser_perm u st :
  listConversationsForUser u st ≡ₚ (map_to_list (conversations_of u st)).*2.
Proof.
  unfold listConversationsForUser, conversations_of.
  rewrite filter_snd_fmap. apply fmap_Permutation.
  apply NoDup_Permutation.
  - apply NoDup_filter, NoDup_map_to_list.
  - apply NoDup_map_to_list.
  - intros [cid c]. rewrite list_elem_of_filter, !elem_of_map_to_list.
    rewrite map_lookup_filter_Some. simpl. tauto.
Qed.

Lemma listConversationsForUser_length u st :
  length (listConversationsForUser u st) = size (conversations_of u st).
Proof.
  rewrite (Permutation_length (listConversationsForUser_perm u st)).
  by rewrite length_fmap, length_map_to_list.
Qed.

Lemma stored_by_id st c1 c2 cid1 cid2 :
  store_ok st →
  conversations st !! cid1 = Some c1 → conversations st !! cid2 = Some c2 →
  conv_id c1 = conv_id c2 → c1 = c2.
Proof.
  intros Hok H1 H2 Hid.
  rewrite (ok_id _ _ _ (Hok _ _ H1)), (ok_id _ _ _ (Hok _ _ H2)) in Hid.
  congruence.
Qed.

Lemma listConversationsForUser_NoDup u st :
  store_ok st → NoDup (conv_id <$> listConversationsForUser u st).
Proof.
  intros Hok.
  assert (∀ x y, x ∈ listConversationsForUser u st → y ∈ listConversationsForUser u st →
                 conv_id x = conv_id y → x = y) as Hinj.
  { intros x y (_ & cx & Hx)%elem_of_listConversationsForUser
               (_ & cy & Hy)%elem_of_listConversationsForUser.
    by apply (stored_by_id st x y cx cy). }
  apply NoDup_fmap_2_strong; [done |].
  unfold listConversationsForUser. apply NoDup_filter.
  apply NoDup_fmap_2_strong; [| apply NoDup_map_to_list].
  intros [k1 c1] [k2 c2] H1%elem_of_map_to_list H2%elem_of_map_to_list. simpl.
  intros <-. f_equal.
  rewrite <- (ok_id _ _ _ (Hok _ _ H1)), <- (ok_id _ _ _ (Hok _ _ H2)). done.
Qed.

Lemma delivered_conversations_snapshot (cs : list Conversation) :
  delivered_conversations (snapshot_chunks cs) = conv_id <$> cs.
Proof. induction cs as [|c cs IH]; [done |]. csimpl. by f_equal. Qed.

Lemma delivered_messages_snapshot (cs : list Conversation) :
  delivered_messages (snapshot_chunks cs) = cs ≫= messages.
Proof. induction cs as [|c cs IH]; [done |]. csimpl. by f_equal. Qed.

(** Opening a feed leaves it registered and in step with the store. *)
Lemma open_feed_synced u h st :
  store_ok st → h ∉ dom (feeds st) →
  let st' := EventsRoute.start u h
               (with_feeds (<[h := {| feed_uid := u; feed_queue := [];
                                      feed_closed := false |}]>) st) in
  queue_of h st' = Data (EvHello u) :: snapshot_chunks (listConversationsForUser u st)
  ∧ feed_synced h u st'.
Proof.
  intros Hok Hfresh st'.
  set (st0 := with_feeds (<[h := {| feed_uid := u; feed_queue := [];
                                    feed_closed := false |}]>) st) in *.
  assert (queue_of h st'
          = Data (EvHello u) :: snapshot_chunks (listConversationsForUser u st)) as Hq.
  { unfold queue_of, st', st0. rewrite start_feeds, lookup_insert_eq. done. }
  destruct (start_frame u h st0) as (_ & Hcs & _ & Hnext).
  change (conversations st0) with (conversations st) in Hcs.
  change (next_message st0) with (next_message st) in Hnext.
  fold st' in Hcs, Hnext.
  split; [done |].
  split; fold st0; fold st'; rewrite ?Hq, ?Hcs, ?Hnext.
  - eexists. unfold st', st0. rewrite start_feeds, lookup_insert_eq.
    split; [done |]. split; [done |]. split; [done |].
    rewrite start_subscribers_of, decide_True by done.
    apply elem_of_union. left. by apply elem_of_singleton.
  - change (Data (EvHello u) :: ?q) with ([Data (EvHello u)] ++ q).
    rewrite delivered_conversations_app, delivered_conversations_snapshot. simpl.
    by apply listConversationsForUser_NoDup.
  - change (Data (EvHello u) :: ?q) with ([Data (EvHello u)] ++ q).
    rewrite delivered_conversations_app, delivered_conversations_snapshot. simpl.
    intros cid (c & -> & (_ & cid' & Hc)%elem_of_listConversationsForUser)%list_elem_of_fmap.
    rewrite (ok_id _ _ _ (Hok _ _ Hc)). eauto.
  - change (Data (EvHello u) :: ?q) with ([Data (EvHello u)] ++ q).
    rewrite delivered_conversations_app, delivered_conversations_snapshot. simpl.
    intros cid c Hc Hp. apply list_elem_of_fmap. exists c.
    split; [by rewrite (ok_id _ _ _ (Hok _ _ Hc)) |].
    apply elem_of_listConversationsForUser. eauto.
  - change (Data (EvHello u) :: ?q) with ([Data (EvHello u)] ++ q).
    rewrite delivered_messages_app, delivered_messages_snapshot. simpl.
    apply NoDup_bind.
    + intros c1 c2 m (_ & cid1 & H1)%elem_of_listConversationsForUser
                      (_ & cid2 & H2)%elem_of_listConversationsForUser Hm1 Hm2.
      destruct (ok_owner _ _ _ (Hok _ _ H1) m Hm1) as [E1 _].
      destruct (ok_owner _ _ _ (Hok _ _ H2) m Hm2) as [E2 _].
      congruence.
    + intros c (_ & cid & Hc)%elem_of_listConversationsForUser.
      apply (ok_nodup _ _ _ (Hok _ _ Hc)).
    + apply (NoDup_fmap_1 conv_id). by apply listConversationsForUser_NoDup.
  - change (Data (EvHello u) :: ?q) with ([Data (EvHello u)] ++ q).
    rewrite delivered_messages_app, delivered_messages_snapshot. simpl.
    intros m (c & Hm & (_ & cid & Hc)%elem_of_listConversationsForUser)%list_elem_of_bind.
    by destruct (ok_owner _ _ _ (Hok _ _ Hc) m Hm).
  - change (Data (EvHello u) :: ?q) with ([Data (EvHello u)] ++ q).
    rewrite delivered_messages_app, delivered_messages_snapshot. simpl.
    intros cid c m Hc Hp Hm. apply list_elem_of_bind. exists c. split; [done |].
    apply elem_of_listConversationsForUser. eauto.
Qed.

End snapshot.

(** ** Queues only grow *)

Section queue_growth.

Implicit Types (st : State) (u : jsstring) (h : nat).

Lemma queue_grows_refl h st : queue_grows h st st.
Proof. intros Hf. split; [done |]. exists []. by rewrite app_nil_r. Qed.

Lemma queue_grows_trans h st1 st2 st3 :
  queue_grows h st1 st2 → queue_grows h st2 st3 → queue_grows h st1 st3.
Proof.
  intros H12 H23 Hf. destruct (H12 Hf) as (Hf2 & a1 & Hq1 & Ha1).
  destruct (H23 Hf2) as (Hf3 & a2 & Hq2 & Ha2). split; [done |].
  exists (a1 ++ a2). rewrite Hq2, Hq1, <- app_assoc. split; [done |].
  by apply Forall_app.
Qed.

Lemma queue_grows_same h st st' : feeds st' = feeds st → queue_grows h st st'.
Proof.
  intros Hf Hh. unfold queue_of. rewrite Hf. split; [done |].
  exists []. by rewrite app_nil_r.
Qed.

Lemma publish_queue_grows h u e st :
  is_hello (Data e) = false → queue_grows h st (publish u e st).
Proof.
  intros He [f Hf]. unfold queue_of. rewrite publish_lookup, Hf. simpl.
  split; [eauto |]. case_decide; [| exists []; by rewrite app_nil_r].
  unfold deliver, enqueue. destruct (feed_closed f); simpl.
  - exists []. by rewrite app_nil_r.
  - exists [Data e]. split; [done |]. by apply Forall_singleton.
Qed.

Lemma publish_all_queue_grows h us e st :
  is_hello (Data e) = false → queue_grows h st (publish_all us e st).
Proof.
  intros He. revert st. induction us as [|u us IH]; intros st; simpl.
  - apply queue_grows_refl.
  - eapply queue_grows_trans; [by apply publish_queue_grows | apply IH].
Qed.

Lemma transition_queue_grows st o k st' h :
  transition st o k st' → queue_grows h st st'.
Proof.
  intros Ht. destruct Ht as [| | | o r _ | o a b c0 _ _ _ _ _
    | cid0 c0 m _ _ _ _ | u' h' Hfresh | h' | h' f Hf].
  - apply queue_grows_refl.
  - by apply queue_grows_same.
  - by apply queue_grows_same.
  - eapply queue_grows_trans; [| by apply publish_queue_grows].
    by apply queue_grows_same.
  - eapply queue_grows_trans; [| by apply publish_queue_grows].
    eapply queue_grows_trans; [| by apply publish_queue_grows].
    by apply queue_grows_same.
  - eapply queue_grows_trans; [| by apply publish_all_queue_grows].
    by apply queue_grows_same.
  - intros [f Hf]. assert (h' ≠ h) as Hne.
    { intros ->. apply not_elem_of_dom in Hfresh. congruence. }
    unfold queue_of. rewrite start_feeds, lookup_insert_ne by done.
    split; [by rewrite Hf |]. exists []. by rewrite app_nil_r.
  - destruct (feeds st !! h') as [f'|] eqn:Hf';
      [| rewrite (cleanup_absent _ _ Hf'); apply queue_grows_refl].
    intros [f Hf]. unfold queue_of. rewrite (cleanup_feeds h' st f' Hf'), lookup_insert.
    case_decide as Hh.
    + subst h'. split; [eauto |]. exists []. rewrite Hf. simpl.
      assert (f' = f) as -> by congruence. by rewrite app_nil_r.
    + split; [by rewrite Hf |]. exists []. by rewrite app_nil_r.
  - intros [f0 Hf0]. unfold queue_of. simpl. rewrite lookup_insert.
    case_decide as Hh.
    + subst h'. split; [eauto |]. assert (f = f0) as -> by congruence.
      rewrite Hf0. simpl. unfold enqueue. destruct (feed_closed f0); simpl.
      * exists []. by rewrite app_nil_r.
      * exists [Ping]. split; [done |]. by apply Forall_singleton.
    + split; [by rewrite Hf0 |]. exists []. by rewrite app_nil_r.
Qed.

Lemma run_queue_grows tr st h : queue_grows h st (run tr st).2.
Proof.
  revert st. induction tr as [|[now r] tr IH]; intros st; simpl.
  - apply queue_grows_refl.
  - pose proof (handle_transition now r st) as Ht.
    destruct (handle now r st) as [o st1]. simpl in Ht.
    specialize (IH st1). destruct (run tr st1) as [os st2]. simpl in *.
    eapply queue_grows_trans; [by eapply transition_queue_grows | done].
Qed.

Lemma run_feed_synced tr st h u :
  stays_connected h tr = true →
  store_ok st → subscriptions_ok st → feed_synced h u st →
  store_ok (run tr st).2 ∧ subscriptions_ok (run tr st).2 ∧ feed_synced h u (run tr st).2.
Proof.
  revert st. induction tr as [|[now r] tr IH]; intros st Hc Hstore Hsubs Hs; simpl; [done |].
  simpl in Hc. apply andb_prop in Hc as [Hr Hc]. apply bool_decide_eq_true in Hr.
  pose proof (handle_transition now r st) as Ht.
  destruct (handle now r st) as [o st1]. simpl in Ht.
  destruct (IH st1 Hc) as (H1 & H2 & H3).
  { by eapply transition_store_ok. }
  { by eapply transition_subscriptions_ok. }
  { by eapply transition_feed_synced. }
  by destruct (run tr st1).
Qed.

End queue_growth.

(** ** The live feed: [/api/events] *)

Section live_feed.

Implicit Types (st : State) (u : jsstring) (h : nat).

Lemma events_GET_opens st u :
  u ≠ [] →
  EventsRoute.GET (Some u) st
  = (Stream (fresh (dom (feeds st))),
     EventsRoute.start u (fresh (dom (feeds st)))
       (with_feeds (<[fresh (dom (feeds st)) :=
                        {| feed_uid := u; feed_queue := []; feed_closed := false |}]>) st)).
Proof. intros Hu. by destruct u. Qed.

Lemma open_feed_queue st u h :
  queue_of h (EventsRoute.start u h
                (with_feeds (<[h := {| feed_uid := u; feed_queue := [];
                                       feed_closed := false |}]>) st))
  = Data (EvHello u) :: snapshot_chunks (listConversationsForUser u st).
Proof. unfold queue_of. by rewrite start_feeds, lookup_insert_eq. Qed.

(** C4: a feed opened for an identity is answered with a stream that
    holds first one hello event for that identity and then one
    conversation event for each conversation the identity takes part in,
    as many as there are such conversations, in the store's order; and
    whatever steps follow only add behind these, and never another
    hello. *)
Theorem live_feed_opening st u (after : list (Z * Request)) :
  u ≠ [] →
  let h := fresh (dom (feeds st)) in
  let snapshot := listConversationsForUser u st in
  (EventsRoute.GET (Some u) st).1 = Stream h
  ∧ queue_of h (EventsRoute.GET (Some u) st).2
    = Data (EvHello u) :: snapshot_chunks snapshot
  ∧ snapshot ≡ₚ (map_to_list (conversations_of u st)).*2
  ∧ length snapshot = size (conversations_of u st)
  ∧ ∃ later,
      queue_of h (run after (EventsRoute.GET (Some u) st).2).2
      = Data (EvHello u) :: snapshot_chunks snapshot ++ later
      ∧ Forall (λ chunk, is_hello chunk = false) later.
Proof.
  intros Hu h snapshot. rewrite (events_GET_opens st u Hu). fold h. cbn [fst snd].
  split; [done |]. split; [apply open_feed_queue |].
  split; [apply listConversationsForUser_perm |].
  split; [apply listConversationsForUser_length |].
  match goal with |- context [run after ?s] => set (st1 := s) end.
  destruct (run_queue_grows after st1 h) as (_ & later & Hq & Hlater).
  { unfold st1. rewrite start_feeds, lookup_insert_eq. eauto. }
  exists later. split; [| done].
  rewrite Hq. unfold st1. by rewrite open_feed_queue.
Qed.

Lemma live_feed_opening_witness :
  let st := Scenario.chatting in
  let u := Scenario.beta in
  let h := fresh (dom (feeds st)) in
  let snapshot := listConversationsForUser u st in
  (EventsRoute.GET (Some u) st).1 = Stream h
  ∧ queue_of h (EventsRoute.GET (Some u) st).2
    = Data (EvHello u) :: snapshot_chunks snapshot
  ∧ snapshot ≡ₚ (map_to_list (conversations_of u st)).*2
  ∧ length snapshot = size (conversations_of u st)
  ∧ ∃ later,
      queue_of h (run Scenario.afterwards (EventsRoute.GET (Some u) st).2).2
      = Data (EvHello u) :: snapshot_chunks snapshot ++ later
      ∧ Forall (λ chunk, is_hello chunk = false) later.
Proof.
  apply (live_feed_opening Scenario.chatting Scenario.beta Scenario.afterwards).
  vm_compute. discriminate.
Defined.

(** C7: the handler registers the feed's observer and reads the snapshot
    in one step, the registration first. In every run of the relay, a
    feed opened for an identity and not disconnected since has been sent
    every conversation the identity takes part in exactly once, and
    every message of these conversations exactly once, counting the
    snapshot and what was published after it together: what existed when
    the feed opened came with the snapshot, what was created or appended
    afterwards came by publication, nothing came twice and nothing was
    left out. *)
Theorem live_feed_exactly_once (before after : list (Z * Request)) u :
  let st := (run before initial_state).2 in
  let h := fresh (dom (feeds st)) in
  let st1 := (EventsRoute.GET (Some u) st).2 in
  let st2 := (run after st1).2 in
  u ≠ [] → stays_connected h after = true →
  (EventsRoute.GET (Some u) st).1 = Stream h
  ∧ feed_live h u st1
  ∧ ∃ published,
      queue_of h st2 = queue_of h st1 ++ published
      ∧ ∀ cid c, conversations st2 !! cid = Some c → participates u c →
          (occurrences cid (delivered_conversations (queue_of h st1))
           + occurrences cid (delivered_conversations published) = 1)%nat
          ∧ ∀ m, m ∈ messages c →
              (occurrences m (delivered_messages (queue_of h st1))
               + occurrences m (delivered_messages published) = 1)%nat.
Proof.
  intros st h st1 st2 Hu Hconn.
  assert (store_ok st) as Hstore by apply (run_store_ok before _ store_ok_initial).
  assert (subscriptions_ok st) as Hsubs
    by apply (run_subscriptions_ok before _ subscriptions_ok_initial).
  pose proof (events_GET_transition (Some u) st) as Ht.
  unfold st2, st1 in *. clear st1 st2.
  rewrite (events_GET_opens st u Hu) in *. fold h in Ht |- *. cbn [fst snd] in *.
  match goal with |- context [run after ?s] => set (st1 := s) in * end.
  destruct (open_feed_synced u h st Hstore (is_fresh _)) as [Hq1 Hs1]. fold st1 in Hq1, Hs1.
  destruct (run_feed_synced after st1 h u Hconn) as (_ & _ & Hs2); try done.
  { by eapply transition_store_ok. }
  { by eapply transition_subscriptions_ok. }
  destruct (run_queue_grows after st1 h) as (_ & published & Hq2 & _).
  { destruct (synced_live h u st1 Hs1) as (f & Hf & _). eauto. }
  split; [done |]. split; [apply (synced_live h u st1 Hs1) |].
  exists published. split; [done |].
  intros cid c Hc Hp. rewrite <- !occurrences_app.
  rewrite <- delivered_conversations_app, <- Hq2. split.
  - apply occurrences_once; [apply (synced_conv_once h u _ Hs2) |].
    by apply (synced_conv_all h u _ Hs2 cid c).
  - intros m Hm. rewrite <- !occurrences_app.
    rewrite <- delivered_messages_app, <- Hq2.
    apply occurrences_once; [apply (synced_msg_once h u _ Hs2) |].
    by apply (synced_msg_all h u _ Hs2 cid c).
Qed.

Lemma live_feed_exactly_once_witness :
  let st := (run Scenario.history initial_state).2 in
  let u := Scenario.beta in
  let h := fresh (dom (feeds st)) in
  let st1 := (EventsRoute.GET (Some u) st).2 in
  let st2 := (run Scenario.afterwards st1).2 in
  (EventsRoute.GET (Some u) st).1 = Stream h
  ∧ feed_live h u st1
  ∧ ∃ published,
      queue_of h st2 = queue_of h st1 ++ published
      ∧ ∀ cid c, conversations st2 !! cid = Some c → participates u c →
          (occurrences cid (delivered_conversations (queue_of h st1))
           + occurrences cid (delivered_conversations published) = 1)%nat
          ∧ ∀ m, m ∈ messages c →
              (occurrences m (delivered_messages (queue_of h st1))
               + occurrences m (delivered_messages published) = 1)%nat.
Proof.
  apply (live_feed_exactly_once Scenario.history Scenario.afterwards Scenario.beta).
  - vm_compute. discriminate.
  - vm_compute. reflexivity.
Defined.

End live_feed.

(** ** The worked scenario, step by step *)

Section scenario_checks.

Lemma messages_append_order_witness :
  ∃ c, conversations (run Scenario.history initial_state).2 !! Scenario.channel = Some c
       ∧ length (messages c) = 2%nat
       ∧ timestamps_ordered (messages c)
       ∧ length (messages c) = sends_on Scenario.channel (run Scenario.history initial_state).1.
Proof.
  destruct (conversations (run Scenario.history initial_state).2 !! Scenario.channel)
    as [c|] eqn:Hc; [| by vm_compute in Hc].
  exists c. split; [done |]. split.
  - vm_compute in Hc. by injection Hc as <-.
  - apply (messages_append_order Scenario.history Scenario.channel c). exact Hc.
Defined.

(** The feed that beta opens after the history holds the greeting and
    the one conversation with its two messages; what follows adds the
    new conversation with gamma and alpha's next message, each once. *)
Example beta_feed :
  let st1 := (EventsRoute.GET (Some Scenario.beta) (run Scenario.history initial_state).2).2 in
  let st2 := (run Scenario.afterwards st1).2 in
  (length <$> (messages <$> listConversationsForUser Scenario.beta
                              (run Scenario.history initial_state).2)) = [2%nat]
  ∧ length (queue_of 0 st1) = 2%nat
  ∧ delivered_conversations (queue_of 0 st2)
    = [Scenario.channel; conversationKey Scenario.gamma Scenario.beta]
  ∧ msg_text <$> delivered_messages (queue_of 0 st2)
    = [lit "hi"; lit "hello"; lit "again"]
  ∧ msg_timestamp <$> delivered_messages (queue_of 0 st2) = [10; 10; 13].
Proof. vm_compute. repeat split. Qed.

End scenario_checks.


(** * Further properties of the handlers *)

(** ** Trimming *)

Section trimming.

Implicit Types s t : jsstring.

Lemma trimStart_visible s : starts_visible s = true → trimStart s = s.
Proof.
  destruct s as [|c s]; [done |]. simpl.
  by destruct (is_white_space c).
Qed.

Lemma trim_clean s : starts_visible s = true → ends_visible s = true → trim s = s.
Proof.
  intros Hs He. unfold trim, trimEnd. rewrite (trimStart_visible s Hs).
  unfold ends_visible in He. rewrite (trimStart_visible _ He).
  apply reverse_involutive.
Qed.

Lemma starts_visible_head s c t : s = c :: t → is_white_space c = false → starts_visible s = true.
Proof. intros -> Hc. simpl. by rewrite Hc. Qed.

(** What [trim] returns is empty, or starts and ends with a visible code
    unit. *)
Lemma trim_shape s : trim s = [] ∨ (starts_visible (trim s) = true ∧ ends_visible (trim s) = true).
Proof.
  destruct (trim s) as [|c t] eqn:Hs; [by left |]. right. rewrite <- Hs. split.
  - eapply starts_visible_head; [exact Hs |]. by eapply trim_head.
  - unfold ends_visible, trim, trimEnd. rewrite reverse_involutive.
    destruct (trimStart (reverse (trimStart s))) as [|d u] eqn:Hr.
    + unfold trim, trimEnd in Hs. by rewrite Hr in Hs.
    + eapply starts_visible_head; [done |]. by eapply trimStart_head.
Qed.

Lemma trim_idempotent s : trim (trim s) = trim s.
Proof.
  destruct (trim_shape s) as [->|[Hs He]]; [done |]. by apply trim_clean.
Qed.

Lemma starts_visible_take n s :
  starts_visible s = true → starts_visible (take (S n) s) = true.
Proof. by destruct s. Qed.

End trimming.

(** ** Display names *)

Section display_names.

Lemma sanitizeName_starts_visible (v : JsValue) :
  starts_visible (UserRoute.sanitizeName v) = true.
Proof.
  destruct (is_blank v) eqn:Hb.
  - by rewrite sanitizeName_blank.
  - destruct v as [| | | |s]; try done.
    destruct (sanitizeName_visible s Hb) as [-> Hne].
    destruct (trim_shape s) as [?|[Hs _]]; [done |].
    by apply (starts_visible_take 47).
Qed.

(** Whatever it is given, [sanitizeName] returns a name that is not empty,
    has at most 48 code units and does not start with white space. *)
Theorem sanitizeName_shape (v : JsValue) :
  UserRoute.sanitizeName v ≠ []
  ∧ (length (UserRoute.sanitizeName v) ≤ 48)%nat
  ∧ starts_visible (UserRoute.sanitizeName v) = true.
Proof.
  split; [apply sanitizeName_nonempty |]. split; [apply sanitizeName_length |].
  apply sanitizeName_starts_visible.
Qed.

(** A name that is already clean is kept as it is: not empty, at most 48
    code units, no white space at either end. *)
Theorem sanitizeName_clean (s : jsstring) :
  starts_visible s = true → ends_visible s = true → (length s ≤ 48)%nat →
  UserRoute.sanitizeName (JsString s) = s.
Proof.
  intros Hs He Hlen. unfold UserRoute.sanitizeName. rewrite (trim_clean s Hs He).
  destruct s as [|c s]; [done |]. cbn [length Nat.ltb Nat.leb].
  unfold slice0. by apply take_ge.
Qed.

Lemma sanitizeName_clean_witness :
  UserRoute.sanitizeName (JsString (lit "Gamma Ray")) = lit "Gamma Ray".
Proof. apply sanitizeName_clean; [reflexivity | reflexivity | vm_compute; lia]. Defined.

End display_names.

(** ** Failures have no effect *)

Section failures.

Implicit Types (st : State) (now : Z).

Lemma renameParticipant_throws u n st e st' :
  renameParticipant u n st = (Throw e, st') → st' = st.
Proof.
  unfold renameParticipant. destruct (users st !! u); [done |]. by intros [= _ <-].
Qed.

Lemma ensureConversation_throws a b now st e st' :
  ensureConversation a b now st = (Throw e, st') → st' = st.
Proof.
  unfold ensureConversation. case_decide; [by intros [= _ <-] |].
  destruct (users st !! a); [| by intros [= _ <-]].
  destruct (users st !! b); [| by intros [= _ <-]].
  by destruct (conversations st !! conversationKey a b).
Qed.

Lemma appendMessage_throws cid r text now st e st' :
  appendMessage cid r text now st = (Throw e, st') → st' = st.
Proof.
  unfold appendMessage. destruct (conversations st !! cid) as [c|]; [| by intros [= _ <-]].
  destruct (trim text); [by intros [= _ <-] |].
  destruct (participants c !! uid r); [done | by intros [= _ <-]].
Qed.

Lemma kind_of_status_200 : kind_of_status 200 = None.
Proof. reflexivity. Qed.

(** A handler that answers with a failure, or throws, leaves the relay
    state exactly as it found it. *)
Theorem failed_step_leaves_state now (r : Request) st (o : Outcome) :
  (handle now r st).1 = Some o → failure_kind o ≠ None → (handle now r st).2 = st.
Proof.
  destruct r as [[vu vn]|[vu vn]|[va vb]|[vc vf vt]|uid|h|h|h]; simpl; try done.
  - unfold UserRoute.POST; simpl.
    destruct vu as [| | | |[|x u]]; simpl; try done.
    destruct (saveUser (x :: u) (UserRoute.sanitizeName vn) st) as [user st'].
    simpl. by intros [= <-].
  - unfold UserRoute.PUT; simpl.
    destruct vu as [| | | |[|x u]]; simpl; try done.
    destruct (renameParticipant (x :: u) (UserRoute.sanitizeName vn) st)
      as [[user|e] st'] eqn:Hr; simpl.
    + by intros [= <-].
    + intros _ _. by eapply renameParticipant_throws.
  - unfold ConnectRoute.POST; simpl.
    destruct va as [| | | |[|x a]]; simpl; try done.
    destruct vb as [| | | |[|y b]]; simpl; try done.
    destruct (ensureConversation (x :: a) (y :: b) now st) as [[c|e] st'] eqn:He; simpl.
    + by intros [= <-].
    + intros _ _. by eapply ensureConversation_throws.
  - unfold MessageRoute.POST.
    cbn [MessageRoute.body_conversationId MessageRoute.body_fromUid MessageRoute.body_text].
    destruct (falsy (string_or_null vc) || falsy (string_or_null vf)
              || (length (MessageRoute.text_of vt) =? 0)%nat); [done |].
    destruct (string_or_null vc) as [cid|]; [| done].
    destruct (string_or_null vf) as [u|]; [| done].
    destruct (getUser u st) as [user|]; [| done].
    destruct (appendMessage cid user (slice0 2000 (MessageRoute.text_of vt)) now st)
      as [[m|e] st'] eqn:Ha; cbn [fst snd].
    + by intros [= <-].
    + intros _ _. by eapply appendMessage_throws.
  - unfold EventsRoute.GET. destruct uid as [[|x u]|]; simpl; try done.
    by intros [= <-].
Qed.

Lemma failed_step_leaves_state_witness :
  (handle 3 (Scenario.connect Scenario.alpha Scenario.alpha) Scenario.registered).2
  = Scenario.registered.
Proof.
  apply (failed_step_leaves_state 3 (Scenario.connect Scenario.alpha Scenario.alpha)
           Scenario.registered
           (Respond 400 (JError "Cannot open a conversation with yourself"))).
  - vm_compute. reflexivity.
  - vm_compute. discriminate.
Defined.

End failures.

(** ** Disconnecting a feed *)

Section disconnect.

Implicit Types (st : State) (h : nat).

Lemma closed_feed_eta (f : Feed) :
  feed_closed f = true →
  {| feed_uid := feed_uid f; feed_queue := feed_queue f; feed_closed := true |} = f.
Proof. destruct f; simpl. by intros ->. Qed.

Lemma cleanup_closed h st (f : Feed) :
  feeds st !! h = Some f → feed_closed f = true →
  subscribers_of (feed_uid f) st ∖ {[h]} = subscribers_of (feed_uid f) st →
  subscribers st !! feed_uid f = Some (subscribers_of (feed_uid f) st) →
  EventsRoute.cleanup h st = st.
Proof.
  intros Hf Hc Hs Hl. unfold EventsRoute.cleanup. rewrite Hf.
  rewrite (closed_feed_eta f Hc). destruct st as [us cs ss fs nm].
  unfold with_feeds, unsubscribeFromUser, with_subscribers; simpl in *.
  rewrite Hs. f_equal; by apply insert_id.
Qed.

(** The abort listener and the stream's [cancel] may both fire, in either
    order: tearing a feed down a second time changes nothing. *)
Theorem disconnect_idempotent h st :
  EventsRoute.cleanup h (EventsRoute.cleanup h st) = EventsRoute.cleanup h st
  ∧ EventsRoute.cancel h (EventsRoute.cleanup h st) = EventsRoute.cleanup h st
  ∧ EventsRoute.cleanup h (EventsRoute.cancel h st) = EventsRoute.cleanup h st
  ∧ EventsRoute.cancel h (EventsRoute.cancel h st) = EventsRoute.cancel h st.
Proof.
  assert (EventsRoute.cleanup h (EventsRoute.cleanup h st) = EventsRoute.cleanup h st) as H1.
  { destruct (feeds st !! h) as [f|] eqn:Hf; [| by rewrite !(cleanup_absent h st Hf)].
    set (f' := {| feed_uid := feed_uid f; feed_queue := feed_queue f; feed_closed := true |}).
    apply (cleanup_closed h _ f').
    - rewrite (cleanup_feeds h st f Hf). apply lookup_insert_eq.
    - done.
    - simpl. rewrite (cleanup_subscribers_of h st f (feed_uid f) Hf), decide_True by done.
      apply set_eq. intros x. rewrite !elem_of_difference. tauto.
    - simpl. rewrite (cleanup_subscribers_of h st f (feed_uid f) Hf), decide_True by done.
      unfold EventsRoute.cleanup. rewrite Hf. simpl. apply lookup_insert_eq. }
  assert (EventsRoute.cancel h (EventsRoute.cleanup h st) = EventsRoute.cleanup h st) as H2.
  { unfold EventsRoute.cancel at 1.
    destruct (feeds (EventsRoute.cleanup h st) !! h) as [f'|]; [| done].
    destruct (feed_closed f'); [done | exact H1]. }
  split; [done |]. split; [done |].
  assert (EventsRoute.cancel h st = st
          ∨ EventsRoute.cancel h st = EventsRoute.cleanup h st) as [E|E].
  { unfold EventsRoute.cancel. destruct (feeds st !! h) as [f|]; [| by left].
    destruct (feed_closed f); [by left | by right]. }
  - by rewrite !E.
  - by rewrite !E.
Qed.

Lemma deliver_closed e (f : Feed) : feed_closed f = true → deliver e f = f.
Proof. intros Hc. unfold deliver, enqueue. by rewrite Hc. Qed.

Lemma publish_closed u e st h (f : Feed) :
  feeds st !! h = Some f → feed_closed f = true → feeds (publish u e st) !! h = Some f.
Proof.
  intros Hf Hc. rewrite publish_lookup, Hf. simpl.
  case_decide; [by rewrite deliver_closed | done].
Qed.

Lemma publish_all_closed us e st h (f : Feed) :
  feeds st !! h = Some f → feed_closed f = true →
  feeds (publish_all us e st) !! h = Some f.
Proof.
  revert st. induction us as [|u us IH]; intros st Hf Hc; simpl; [done |].
  apply IH; [by apply publish_closed | done].
Qed.

(** No step writes to a closed stream or opens it again. *)
Lemma transition_closed st o k st' h (f : Feed) :
  transition st o k st' → feeds st !! h = Some f → feed_closed f = true →
  feeds st' !! h = Some f.
Proof.
  intros Ht Hf Hc. destruct Ht as [| | | o r _ | o a b c0 _ _ _ _ _
    | cid0 c0 m _ _ _ _ | u' h' Hfresh | h' | h' f' Hf']; try done.
  - by apply publish_closed.
  - apply publish_closed; [| done]. by apply publish_closed.
  - by apply publish_all_closed.
  - rewrite start_feeds, lookup_insert_ne; [done |].
    intros ->. apply not_elem_of_dom in Hfresh. congruence.
  - destruct (feeds st !! h') as [f'|] eqn:Hf'; [| by rewrite cleanup_absent].
    rewrite (cleanup_feeds h' st f' Hf'), lookup_insert. case_decide as Hh; [| done].
    subst h'. assert (f' = f) as -> by congruence. by rewrite closed_feed_eta.
  - simpl. rewrite lookup_insert. case_decide as Hh; [| done].
    subst h'. assert (f' = f) as -> by congruence.
    unfold enqueue. by rewrite Hc.
Qed.

Lemma run_closed tr st h (f : Feed) :
  feeds st !! h = Some f → feed_closed f = true → feeds (run tr st).2 !! h = Some f.
Proof.
  revert st. induction tr as [|[now r] tr IH]; intros st Hf Hc; simpl; [done |].
  pose proof (handle_transition now r st) as Ht.
  destruct (handle now r st) as [o st1]. simpl in Ht.
  specialize (IH st1 (transition_closed _ _ _ _ _ _ Ht Hf Hc) Hc).
  by destruct (run tr st1).
Qed.

(** Once a feed is torn down, no later step of the relay, whatever is
    published and whichever timers still fire, adds anything to its
    stream: the queue stays as the disconnect found it. *)
Theorem disconnected_feed_silent (tr : list (Z * Request)) st h (f : Feed) :
  feeds st !! h = Some f →
  feeds (run tr (EventsRoute.cleanup h st)).2 !! h
  = Some {| feed_uid := feed_uid f; feed_queue := feed_queue f; feed_closed := true |}.
Proof.
  intros Hf. apply run_closed; [| done].
  rewrite (cleanup_feeds h st f Hf). apply lookup_insert_eq.
Qed.

Lemma disconnected_feed_silent_witness :
  let st := (EventsRoute.GET (Some Scenario.beta) Scenario.chatting).2 in
  ∃ f, feeds st !! 0%nat = Some f
       ∧ feeds (run Scenario.afterwards (EventsRoute.cleanup 0 st)).2 !! 0%nat
         = Some {| feed_uid := feed_uid f; feed_queue := feed_queue f; feed_closed := true |}.
Proof.
  intros st. destruct (feeds st !! 0%nat) as [f|] eqn:Hf; [| by vm_compute in Hf].
  exists f. split; [done |].
  apply (disconnected_feed_silent Scenario.afterwards st 0 f). exact Hf.
Defined.

(** In every run of the relay, a feed that is torn down is left
    registered as an observer of no identity. *)
Theorem disconnected_feed_unregistered (before : list (Z * Request)) h (u : jsstring) :
  h ∉ subscribers_of u (EventsRoute.cleanup h (run before initial_state).2).
Proof.
  set (st := (run before initial_state).2).
  assert (subscriptions_ok st) as Hok
    by apply (run_subscriptions_ok before _ subscriptions_ok_initial).
  destruct (feeds st !! h) as [f|] eqn:Hf.
  - rewrite (cleanup_subscribers_of h st f u Hf). case_decide as Hu.
    + intros [_ Hn]%elem_of_difference. by apply Hn, elem_of_singleton.
    + intros Hin. destruct (Hok u h Hin) as (f' & Hf' & Hu' & _). congruence.
  - rewrite (cleanup_absent h st Hf). intros Hin.
    destruct (Hok u h Hin) as (f' & Hf' & _). congruence.
Qed.

End disconnect.

(** ** What the registry holds *)

Section registry_contents.

Implicit Types (st : State) (now : Z) (u : jsstring).

Lemma store_identity_users (r : User) st :
  users (store_identity r st) = <[uid r := r]> (users st).
Proof. reflexivity. Qed.

(** A step leaves the registry alone or files one sanitised record under
    a non-empty id. *)
Lemma handle_users now (r : Request) st :
  users (handle now r st).2 = users st
  ∨ ∃ u v, u ≠ []
           ∧ users (handle now r st).2
             = <[u := {| uid := u; name := UserRoute.sanitizeName v |}]> (users st).
Proof.
  destruct r as [[vu vn]|[vu vn]|[va vb]|[vc vf vt]|uid|h|h|h]; simpl.
  - unfold UserRoute.POST; simpl.
    destruct vu as [| | | |[|x u]]; simpl; try by left.
    unfold saveUser. destruct (users st !! (x :: u)) as [r0|]; simpl.
    + destruct (UserRoute.sanitizeName vn) as [|y n] eqn:Hn; simpl; [by left |].
      right. exists (x :: u), vn. split; [done |]. by rewrite Hn.
    + right. exists (x :: u), vn. done.
  - unfold UserRoute.PUT; simpl.
    destruct vu as [| | | |[|x u]]; simpl; try by left.
    unfold renameParticipant. destruct (users st !! (x :: u)) as [r0|]; simpl; [| by left].
    right. exists (x :: u), vn. done.
  - left. unfold ConnectRoute.POST; simpl.
    destruct va as [| | | |[|x a]]; simpl; try done.
    destruct vb as [| | | |[|y b]]; simpl; try done.
    unfold ensureConversation. case_decide; [done |].
    destruct (users st !! (x :: a)); [| done]. destruct (users st !! (y :: b)); [| done].
    by destruct (conversations st !! conversationKey (x :: a) (y :: b)).
  - left. unfold MessageRoute.POST.
    cbn [MessageRoute.body_conversationId MessageRoute.body_fromUid MessageRoute.body_text].
    destruct (falsy (string_or_null vc) || falsy (string_or_null vf)
              || (length (MessageRoute.text_of vt) =? 0)%nat); [done |].
    destruct (string_or_null vc) as [cid|]; [| done].
    destruct (string_or_null vf) as [u|]; [| done].
    destruct (getUser u st) as [user|]; [| done].
    unfold appendMessage. destruct (conversations st !! cid) as [c|]; [| done].
    destruct (trim (slice0 2000 (MessageRoute.text_of vt))); [done |].
    destruct (participants c !! uid user); [| done]. cbn [fst snd].
    match goal with |- context [publish_all ?us ?e ?s0] =>
      destruct (publish_all_frame us e s0) as (-> & _) end.
    done.
  - left. unfold EventsRoute.GET. destruct uid as [[|x u]|]; simpl; try done.
    match goal with |- context [EventsRoute.start ?u ?h ?s0] =>
      destruct (start_frame u h s0) as (-> & _) end.
    done.
  - left. by destruct (cleanup_frame h st) as (-> & _).
  - left. unfold EventsRoute.cancel. destruct (feeds st !! h) as [f|]; [| done].
    destruct (feed_closed f); [done |]. by destruct (cleanup_frame h st) as (-> & _).
  - left. unfold EventsRoute.keepAlive. by destruct (feeds st !! h).
Qed.

(** In every run of the relay, whatever the requests carried, each
    registered identity is filed under its own non-empty id and its display
    name has between 1 and 48 code units and no white space in front. *)
Theorem registry_holds_clean_names (tr : list (Z * Request)) u (r : User) :
  users (run tr initial_state).2 !! u = Some r → identity_ok u r.
Proof.
  assert (∀ tr st, (∀ u r, users st !! u = Some r → identity_ok u r) →
                   ∀ u r, users (run tr st).2 !! u = Some r → identity_ok u r) as Hrun.
  { clear. induction tr as [|[now q] tr IH]; intros st Hst; simpl; [done |].
    pose proof (handle_users now q st) as Hu.
    destruct (handle now q st) as [o st1]. simpl in Hu.
    specialize (IH st1). destruct (run tr st1) as [os st2]. simpl in *.
    apply IH. intros u r. destruct Hu as [-> | (u0 & v & Hu0 & ->)]; [apply Hst |].
    rewrite lookup_insert. case_decide as Hk; [| apply Hst].
    intros [= <-]. subst u0.
    pose proof (sanitizeName_nonempty v) as Hne.
    pose proof (sanitizeName_length v) as Hlen.
    pose proof (sanitizeName_starts_visible v) as Hvis.
    split; [done |]. split; [done |]. split; [| done]. simpl.
    destruct (UserRoute.sanitizeName v); [done | simpl in *; lia]. }
  apply (Hrun tr initial_state). intros u0 r0.
  unfold initial_state; simpl. by rewrite lookup_empty.
Qed.

Lemma registry_holds_clean_names_witness :
  identity_ok Scenario.alpha {| uid := Scenario.alpha; name := lit "Al" |}.
Proof.
  apply (registry_holds_clean_names (Scenario.history ++ Scenario.afterwards)).
  vm_compute. reflexivity.
Defined.

End registry_contents.

(** ** What the message logs hold *)

Section log_contents.

Implicit Types (st : State) (now : Z) (c : Conversation) (m : Message).

Lemma message_ok_participants c c' m :
  participants c' = participants c → message_ok c m → message_ok c' m.
Proof.
  intros Hp (H1 & H2 & H3 & u & Hu & Hin). unfold message_ok, participates.
  rewrite Hp. eauto 10.
Qed.

Lemma message_ok_refresh r c m : message_ok c m → message_ok (refresh_participant r c) m.
Proof.
  intros (H1 & H2 & H3 & u & Hu & Hin). split; [done |]. split; [done |]. split; [done |].
  exists u. split; [done |]. by apply refresh_participates.
Qed.

(** The message a successful send answers with. *)
Lemma sent_message_shape now (r : Request) st m :
  (handle now r st).1 = Some (Respond 200 (JMessage m)) →
  ∃ c, conversations st !! msg_conversationId m = Some c ∧ message_ok c m.
Proof.
  destruct r as [[vu vn]|[vu vn]|[va vb]|[vc vf vt]|uid|h|h|h]; simpl; try done.
  - unfold UserRoute.POST; simpl. destruct vu as [| | | |[|x u]]; simpl; try done.
    by destruct (saveUser (x :: u) (UserRoute.sanitizeName vn) st).
  - unfold UserRoute.PUT; simpl. destruct vu as [| | | |[|x u]]; simpl; try done.
    by destruct (renameParticipant (x :: u) (UserRoute.sanitizeName vn) st) as [[?|?] ?].
  - unfold ConnectRoute.POST; simpl.
    destruct va as [| | | |[|x a]]; simpl; try done.
    destruct vb as [| | | |[|y b]]; simpl; try done.
    by destruct (ensureConversation (x :: a) (y :: b) now st) as [[?|?] ?].
  - unfold MessageRoute.POST.
    cbn [MessageRoute.body_conversationId MessageRoute.body_fromUid MessageRoute.body_text].
    destruct (falsy (string_or_null vc) || falsy (string_or_null vf)
              || (length (MessageRoute.text_of vt) =? 0)%nat) eqn:Hbad; [done |].
    destruct (string_or_null vc) as [cid|]; [| done].
    destruct (string_or_null vf) as [u|]; [| done].
    destruct (getUser u st) as [user|]; [| done].
    assert (starts_visible (MessageRoute.text_of vt) = true) as Hvis.
    { apply orb_false_elim in Hbad as [_ Hlen].
      destruct vt as [| | | |s]; simpl in *; try done.
      destruct (trim_shape s) as [E|[Hs _]]; [by rewrite E in Hlen | done]. }
    apply (starts_visible_take 1999) in Hvis.
    assert (length (slice0 2000 (MessageRoute.text_of vt)) ≤ 2000)%nat as Hlen.
    { unfold slice0. rewrite length_take. lia. }
    fold (slice0 2000 (MessageRoute.text_of vt)) in Hvis.
    remember (slice0 2000 (MessageRoute.text_of vt)) as text eqn:Htext.
    unfold appendMessage. destruct (conversations st !! cid) as [c|] eqn:Hc; [| done].
    destruct (trim text) as [|z t] eqn:Ht; [done |].
    destruct (participants c !! uid user) as [p|] eqn:Hp; [| done]. cbn [fst snd].
    intros [= <-]. cbn [msg_conversationId]. exists c. split; [done |].
    unfold message_ok. cbn [msg_text msg_kind msg_from].
    split; [| split; [done |]].
    + split; [| lia]. destruct text; [done | simpl; lia].
    + split; [done |]. exists (uid user). split; [done |]. by exists p.
  - unfold EventsRoute.GET. by destruct uid as [[|x u]|].
Qed.

(** A step keeps every stored message well-formed. *)
Lemma handle_messages_ok now (r : Request) st :
  (∀ cid c m, conversations st !! cid = Some c → m ∈ messages c → message_ok c m) →
  ∀ cid c m, conversations (handle now r st).2 !! cid = Some c → m ∈ messages c →
             message_ok c m.
Proof.
  intros Hst. pose proof (handle_transition now r st) as Ht.
  pose proof (sent_message_shape now r st) as Hsent.
  destruct (handle now r st) as [o st']. cbn [fst snd] in *.
  destruct Ht as [| o r0 _ | o r0 _ | o r0 _ | o a b c0 _ _ Hfresh _ Hempty
    | cid0 c0 m0 Hc0 _ Hcid _ | u' h' _ | h' | h' f _]; try done.
  - intros cid c m. simpl. rewrite lookup_fmap.
    destruct (conversations st !! cid) as [c1|] eqn:Hc1; [| done].
    intros [= <-]. rewrite refresh_messages. intros Hm.
    apply message_ok_refresh. eauto.
  - intros cid c m. simpl. rewrite lookup_fmap.
    destruct (conversations st !! cid) as [c1|] eqn:Hc1; [| done].
    intros [= <-]. rewrite refresh_messages. intros Hm.
    apply message_ok_refresh. eauto.
  - intros cid c m. simpl. rewrite lookup_insert. case_decide as Hk; [| apply Hst].
    intros [= <-]. rewrite Hempty. by intros ?%elem_of_nil.
  - intros cid c m.
    match goal with |- context [publish_all ?us ?e ?s0] =>
      destruct (publish_all_frame us e s0) as (_ & -> & _) end.
    simpl. rewrite lookup_insert. case_decide as Hk; [| apply Hst].
    intros [= <-]. simpl.
    intros [Hm| ->%list_elem_of_singleton]%elem_of_app.
    + apply (message_ok_participants c0); [done | eauto].
    + destruct (Hsent m0 eq_refl) as (c1 & Hc1 & Hok).
      apply (message_ok_participants c1); [| done].
      simpl. congruence.
  - intros cid c m.
    match goal with |- context [EventsRoute.start ?u ?h ?s0] =>
      destruct (start_frame u h s0) as (_ & -> & _) end.
    apply Hst.
  - intros cid c m. destruct (cleanup_frame h' st) as (_ & -> & _). apply Hst.
Qed.

(** In every run of the relay, every stored message is a participant's
    message: its text has between 1 and 2000 code units and no white space
    in front, its kind is "message", and its author takes part in the
    conversation that holds it. *)
Theorem logs_hold_participant_messages (tr : list (Z * Request)) (cid : jsstring) c m :
  conversations (run tr initial_state).2 !! cid = Some c → m ∈ messages c → message_ok c m.
Proof.
  assert (∀ tr st,
            (∀ cid c m, conversations st !! cid = Some c → m ∈ messages c → message_ok c m) →
            ∀ cid c m, conversations (run tr st).2 !! cid = Some c → m ∈ messages c →
                       message_ok c m) as Hrun.
  { clear. induction tr as [|[now q] tr IH]; intros st Hst; simpl; [done |].
    pose proof (handle_messages_ok now q st Hst) as Hstep.
    destruct (handle now q st) as [o st1]. cbn [fst snd] in Hstep.
    specialize (IH st1 Hstep). by destruct (run tr st1). }
  apply (Hrun tr initial_state). intros cid0 c0 m0.
  unfold initial_state; simpl. by rewrite lookup_empty.
Qed.

Lemma logs_hold_participant_messages_witness :
  ∃ c m, conversations (run Scenario.history initial_state).2 !! Scenario.channel = Some c
         ∧ messages c !! 0%nat = Some m
         ∧ message_ok c m.
Proof.
  destruct (conversations (run Scenario.history initial_state).2 !! Scenario.channel)
    as [c|] eqn:Hc; [| by vm_compute in Hc].
  destruct (messages c !! 0%nat) as [m|] eqn:Hm.
  2: { vm_compute in Hc. injection Hc as <-. by vm_compute in Hm. }
  exists c, m. split; [done |]. split; [done |].
  apply (logs_hold_participant_messages Scenario.history Scenario.channel c m Hc).
  by eapply list_elem_of_lookup_2.
Defined.

End log_contents.

(** * The terminal component *)

(** ** The system log *)

Section system_log.

Import MeshTerminal.

Lemma appendLog_closed_form id now text tone (prev : list LogLine) :
  let line := {| line_id := id; line_text := text; line_tone := tone;
                 line_timestamp := now |} in
  appendLog id now text tone prev = drop (length prev + 1 - 200) (prev ++ [line]).
Proof.
  intros line. unfold appendLog. fold line. rewrite length_app. simpl.
  destruct (Nat.ltb_spec 200 (length prev + 1)) as [Hlt|Hge]; [done |].
  by replace (length prev + 1 - 200)%nat with 0%nat by lia.
Qed.

(** The system log keeps the newest 200 lines: after any number of calls
    of [appendLog] on an empty log it holds the last 200 lines appended, in
    order, or all of them if there were fewer. *)
Theorem log_keeps_newest_200 (lines : list LogLine) :
  log_after lines = drop (length lines - 200) lines
  ∧ (length (log_after lines) ≤ 200)%nat.
Proof.
  assert (log_after lines = drop (length lines - 200) lines) as Hlog.
  { unfold log_after. induction lines as [|l lines IH] using rev_ind; [done |].
    rewrite foldl_app. simpl. rewrite IH, appendLog_closed_form.
    assert ({| line_id := line_id l; line_text := line_text l; line_tone := line_tone l;
               line_timestamp := line_timestamp l |} = l) as -> by (by destruct l).
    rewrite length_drop, length_app. simpl.
    destruct (decide (length lines ≤ 200)%nat) as [Hle|Hgt].
    - replace (length lines - 200)%nat with 0%nat by lia. rewrite !drop_0.
      f_equal; lia.
    - rewrite drop_app_le by (rewrite length_drop; lia).
      rewrite drop_drop. rewrite (drop_app_le lines) by lia.
      do 2 f_equal. lia. }
  split; [done |]. rewrite Hlog, length_drop. lia.
Qed.

End system_log.

(** ** The sessions index *)

Section sessions_index.

Import MeshTerminal.

Implicit Types (id : jsstring) (c : Conversation) (prev : SessionsIndex).

Lemma session_with_session id id' c prev :
  session id' (with_session id c prev) = if decide (id = id') then Some c else session id' prev.
Proof.
  induction prev as [|[k d] prev IH]; simpl.
  - repeat case_decide; congruence.
  - destruct (decide (k = id)) as [->|Hk]; simpl.
    + repeat case_decide; congruence.
    + rewrite IH. repeat case_decide; congruence.
Qed.

Lemma session_with_session_eq id c prev : session id (with_session id c prev) = Some c.
Proof. rewrite session_with_session. by rewrite decide_True. Qed.

Lemma session_with_session_ne id id' c prev :
  id ≠ id' → session id' (with_session id c prev) = session id' prev.
Proof. intros Hne. rewrite session_with_session. by rewrite decide_False. Qed.


Lemma with_session_keys_new id c prev :
  session id prev = None → (with_session id c prev).*1 = prev.*1 ++ [id].
Proof.
  induction prev as [|[k d] prev IH]; simpl; [done |].
  destruct (decide (k = id)) as [->|Hk]; csimpl; [done |].
  intros Hs. f_equal. by apply IH.
Qed.

Lemma session_None_keys id prev : session id prev = None ↔ id ∉ prev.*1.
Proof.
  induction prev as [|[k d] prev IH]; simpl.
  - split; [intros _; apply not_elem_of_nil | done].
  - rewrite not_elem_of_cons. destruct (decide (k = id)) as [->|Hk].
    + split; [done | by intros [? _]].
    + rewrite IH. split; [by split | by intros [_ ?]].
Qed.

Section with_component.

Context `{JsRuntime}.
Variable self : jsstring.




Lemma upsertMessage_fresh id (m : Message) prev (current : Conversation) :
  session id prev = Some current →
  existsb (λ entry, bool_decide (msg_id entry = msg_id m)) (messages current) = false →
  (upsertMessage self id m prev).1
  = with_session id
      {| conv_id := conv_id current; participants := participants current;
         messages := messages current ++ [m]; updatedAt := msg_timestamp m |} prev.
Proof.
  intros Hcur Hnew. unfold upsertMessage. rewrite Hcur, Hnew.
  by destruct (bool_decide (msg_kind m = KindMessage) && bool_decide (msg_from m ≠ Some self)).
Qed.

Lemma upsertMessage_unknown id (m : Message) prev :
  session id prev = None → upsertMessage self id m prev = (prev, []).
Proof. intros Hcur. unfold upsertMessage. by rewrite Hcur. Qed.

(** A message event for a known session whose log holds no message with
    that id appends the message to the log, makes its timestamp the
    session's [updatedAt], keeps the session's id and participants, and
    leaves every other session alone. *)
Theorem upsertMessage_appends id (m : Message) prev (current : Conversation) :
  session id prev = Some current →
  existsb (λ entry, bool_decide (msg_id entry = msg_id m)) (messages current) = false →
  ∃ next, session id (upsertMessage self id m prev).1 = Some next
          ∧ messages next = messages current ++ [m]
          ∧ updatedAt next = msg_timestamp m
          ∧ conv_id next = conv_id current
          ∧ participants next = participants current
          ∧ ∀ id', id' ≠ id →
              session id' (upsertMessage self id m prev).1 = session id' prev.
Proof.
  intros Hcur Hnew. rewrite (upsertMessage_fresh id m prev current Hcur Hnew).
  eexists. split; [apply session_with_session_eq |].
  split; [done |]. split; [done |]. split; [done |]. split; [done |].
  intros id' Hne. by apply session_with_session_ne.
Qed.

End with_component.


Lemma upsertMessage_appends_witness :
  let current :=
    {| conv_id := Scenario.channel; participants := ∅; messages := []; updatedAt := 3 |} in
  let m := {| msg_id := 0; msg_conversationId := Scenario.channel;
              msg_from := Some Scenario.alpha; msg_text := lit "hi";
              msg_kind := KindMessage; msg_timestamp := 10 |} in
  let prev := [(Scenario.channel, current)] in
  ∃ next, session Scenario.channel
            (@upsertMessage ascii_runtime Scenario.beta Scenario.channel m prev).1 = Some next
          ∧ messages next = messages current ++ [m]
          ∧ updatedAt next = msg_timestamp m
          ∧ conv_id next = conv_id current
          ∧ participants next = participants current
          ∧ ∀ id', id' ≠ Scenario.channel →
              session id' (@upsertMessage ascii_runtime Scenario.beta Scenario.channel m prev).1
              = session id' prev.
Proof.
  intros current m prev.
  apply (@upsertMessage_appends ascii_runtime Scenario.beta Scenario.channel m prev current).
  - vm_compute. reflexivity.
  - vm_compute. reflexivity.
Defined.

(** *** The order of the sessions *)

Lemma recent_first_cons c (l : list Conversation) :
  recent_first (c :: l)
  ↔ (∀ d, head l = Some d → updatedAt d ≤ updatedAt c) ∧ recent_first l.
Proof.
  split.
  - intros Hrf. split.
    + intros d Hd. destruct l as [|d' l]; [done |]. injection Hd as ->.
      by apply (Hrf 0%nat c d).
    + intros i x y Hx Hy. by apply (Hrf (S i) x y).
  - intros [Hhead Hrf] [|i] x y Hx Hy.
    + injection Hx as <-. apply Hhead. by destruct l.
    + by apply (Hrf i x y).
Qed.

Lemma insert_by_updatedAt_head c (l : list Conversation) :
  head (insert_by_updatedAt c l) = Some c
  ∨ (head (insert_by_updatedAt c l) = head l ∧ ∃ d, head l = Some d ∧ updatedAt c < updatedAt d).
Proof.
  destruct l as [|d l]; simpl; [by left |].
  destruct (Z.ltb_spec (updatedAt c) (updatedAt d)); [right | by left].
  split; [done |]. eauto.
Qed.

Lemma insert_by_updatedAt_recent_first c (l : list Conversation) :
  recent_first l → recent_first (insert_by_updatedAt c l).
Proof.
  induction l as [|d l IH]; intros Hrf; simpl.
  - by intros [|i] x y Hx Hy.
  - apply recent_first_cons in Hrf as [Hhead Hl].
    destruct (Z.ltb_spec (updatedAt c) (updatedAt d)) as [Hlt|Hge].
    + apply recent_first_cons. split; [| by apply IH].
      intros x Hx. destruct (insert_by_updatedAt_head c l) as [Hc|[Hc _]];
        rewrite Hc in Hx.
      * injection Hx as <-. lia.
      * by apply Hhead.
    + apply recent_first_cons. split.
      * intros x [= <-]. lia.
      * apply recent_first_cons. by split.
Qed.

Lemma insert_by_updatedAt_perm c (l : list Conversation) : insert_by_updatedAt c l ≡ₚ c :: l.
Proof.
  induction l as [|d l IH]; simpl; [done |].
  destruct (updatedAt c <? updatedAt d); [| done].
  rewrite IH. apply Permutation_swap.
Qed.

Lemma recent_first_head (l : list Conversation) c d :
  recent_first l → head l = Some c → d ∈ l → updatedAt d ≤ updatedAt c.
Proof.
  revert c. induction l as [|x l IH]; intros c Hrf Hc Hd; [done |].
  injection Hc as ->. apply recent_first_cons in Hrf as [Hhead Hl].
  apply elem_of_cons in Hd as [->|Hd]; [lia |].
  destruct l as [|y l]; [by apply elem_of_nil in Hd |].
  specialize (Hhead y eq_refl). specialize (IH y Hl eq_refl Hd). lia.
Qed.

Lemma sortedSessions_sorted (sessions : SessionsIndex) :
  sortedSessions sessions ≡ₚ sessions.*2 ∧ recent_first (sortedSessions sessions).
Proof.
  unfold sortedSessions. induction (sessions.*2) as [|c l [IHp IHs]]; simpl.
  - split; [done |]. by intros [|i] x y Hx Hy.
  - split.
    + rewrite insert_by_updatedAt_perm. by constructor.
    + by apply insert_by_updatedAt_recent_first.
Qed.

(** The sessions are shown most recently updated first: [sortedSessions]
    lists every session exactly once, and none of them was updated after
    the one listed before it. *)
Theorem sortedSessions_recent_first (sessions : SessionsIndex) :
  sortedSessions sessions ≡ₚ sessions.*2 ∧ recent_first (sortedSessions sessions).
Proof. apply sortedSessions_sorted. Qed.

(** Without a chosen conversation (none, or the empty id) the active
    session is a session updated last: a session that no other session
    was updated after; there is none only if there are no sessions. *)
Theorem activeSession_default (activeConversation : option jsstring) (sessions : SessionsIndex) :
  falsy activeConversation = true →
  match activeSession activeConversation sessions with
  | Some c => c ∈ sessions.*2 ∧ ∀ d, d ∈ sessions.*2 → updatedAt d ≤ updatedAt c
  | None => sessions = []
  end.
Proof.
  intros Hfalsy.
  assert (activeSession activeConversation sessions = head (sortedSessions sessions)) as ->.
  { by destruct activeConversation as [[|x id]|]. }
  destruct (sortedSessions_sorted sessions) as [Hperm Hrf].
  destruct (head (sortedSessions sessions)) as [c|] eqn:Hhead.
  - split.
    + rewrite <- Hperm. by apply head_Some_elem_of.
    + intros d Hd. rewrite <- Hperm in Hd. by apply (recent_first_head _ c d Hrf).
  - apply head_None in Hhead. rewrite Hhead in Hperm.
    apply Permutation_nil_l in Hperm. by destruct sessions.
Qed.

Lemma activeSession_default_witness :
  match activeSession None
          [(lit "a:b", {| conv_id := lit "a:b"; participants := ∅; messages := [];
                          updatedAt := 3 |});
           (lit "a:c", {| conv_id := lit "a:c"; participants := ∅; messages := [];
                          updatedAt := 7 |})] with
  | Some c =>
      c ∈ [(lit "a:b", {| conv_id := lit "a:b"; participants := ∅; messages := [];
                          updatedAt := 3 |});
           (lit "a:c", {| conv_id := lit "a:c"; participants := ∅; messages := [];
                          updatedAt := 7 |})].*2
      ∧ ∀ d, d ∈ [(lit "a:b", {| conv_id := lit "a:b"; participants := ∅; messages := [];
                                 updatedAt := 3 |});
                  (lit "a:c", {| conv_id := lit "a:c"; participants := ∅; messages := [];
                                 updatedAt := 7 |})].*2 →
             updatedAt d ≤ updatedAt c
  | None =>
      [(lit "a:b", {| conv_id := lit "a:b"; participants := ∅; messages := [];
                      updatedAt := 3 |});
       (lit "a:c", {| conv_id := lit "a:c"; participants := ∅; messages := [];
                      updatedAt := 7 |})] = ([] : SessionsIndex)
  end.
Proof. apply (activeSession_default None). reflexivity. Defined.

End sessions_index.

(** ** The component's view of the store *)

Section client_view.

Import MeshTerminal.

Context `{JsRuntime}.
Variable self : jsstring.

Implicit Types (st : State) (h : nat) (q : list Chunk) (prev : SessionsIndex).



Lemma replay_quiet (chunk : Chunk) prev :
  delivered_conversations [chunk] = [] → delivered_messages [chunk] = [] →
  replay self [chunk] prev = prev.
Proof. by destruct chunk as [[| | | |]|]. Qed.













End client_view.


(** What beta's component shows after the scenario: the channel with
    alpha, holding three messages, and the new session with gamma. *)
Example beta_sessions :
  let st1 := (EventsRoute.GET (Some Scenario.beta) (run Scenario.history initial_state).2).2 in
  let st2 := (run Scenario.afterwards st1).2 in
  let view := @MeshTerminal.replay ascii_runtime Scenario.beta (queue_of 0 st2) [] in
  view.*1 = [Scenario.channel; conversationKey Scenario.gamma Scenario.beta]
  ∧ (λ c, msg_text <$> messages c) <$> view.*2
    = [[lit "hi"; lit "hello"; lit "again"]; []]
  ∧ conv_id <$> MeshTerminal.sortedSessions view
    = [Scenario.channel; conversationKey Scenario.gamma Scenario.beta].
Proof. vm_compute. repeat split. Qed.

(** ** The command line *)

Section command_line.

Import MeshTerminal.

Implicit Types (s w : jsstring).

Lemma starts_visible_app s t : s ≠ [] → starts_visible (s ++ t) = starts_visible s.
Proof. by destruct s. Qed.

Lemma ends_visible_app s t : t ≠ [] → ends_visible (s ++ t) = ends_visible t.
Proof.
  intros Ht. unfold ends_visible. rewrite reverse_app.
  apply starts_visible_app. intros E. apply Ht.
  by rewrite <- (reverse_involutive t), E.
Qed.

Lemma ends_visible_cons c s : s ≠ [] → ends_visible (c :: s) = ends_visible s.
Proof. intros Hs. by apply (ends_visible_app [c] s). Qed.

Lemma clean_trim s : clean s = true → trim s = s.
Proof.
  destruct s as [|c s]; [done |]. unfold clean.
  intros [Hs He]%andb_prop. by apply trim_clean.
Qed.

Lemma trim_is_clean s : clean (trim s) = true.
Proof.
  destruct (trim_shape s) as [->|[Hs He]]; [done |].
  unfold clean. destruct (trim s); [done |]. by rewrite Hs, He.
Qed.

Lemma is_word_clean w : is_word w = true → starts_visible w = true ∧ ends_visible w = true.
Proof.
  destruct w as [|c w]; [done |]. unfold is_word. intros Hw.
  assert (∀ x, x ∈ c :: w → is_white_space x = false) as Hall.
  { intros x Hx. apply list_elem_of_In in Hx.
    rewrite forallb_forall in Hw. specialize (Hw x Hx). by destruct (is_white_space x). }
  split.
  - simpl. rewrite (Hall c); [done | apply list_elem_of_here].
  - unfold ends_visible. destruct (reverse (c :: w)) as [|d r] eqn:Hr.
    + apply (f_equal length) in Hr. rewrite length_reverse in Hr. done.
    + simpl. rewrite (Hall d); [done |].
      apply elem_of_reverse. rewrite Hr. apply list_elem_of_here.
Qed.

(** Words joined by single spaces have no white space at either end. *)
Lemma join_words_clean (ws : list jsstring) :
  Forall (λ w, is_word w = true) ws → clean (join (lit " ") ws) = true.
Proof.
  induction 1 as [|w ws Hw Hws IH]; [done |].
  destruct (is_word_clean w Hw) as [Hs He].
  destruct ws as [|w' ws].
  - simpl. unfold clean. destruct w; [done |]. by rewrite Hs, He.
  - change (join (lit " ") (w :: w' :: ws)) with (w ++ lit " " ++ join (lit " ") (w' :: ws)).
    assert (w ≠ []) as Hne by (by destruct w).
    assert (join (lit " ") (w' :: ws) ≠ []) as Hne'.
    { apply Forall_cons in Hws as [Hw' _]. destruct w'; [done |]. by destruct ws. }
    unfold clean. destruct (w ++ lit " " ++ join (lit " ") (w' :: ws)) eqn:E.
    { by destruct w. }
    rewrite <- E. rewrite starts_visible_app, Hs by done.
    rewrite ends_visible_app by (by destruct (join (lit " ") (w' :: ws))).
    rewrite ends_visible_app by done.
    unfold clean in IH. destruct (join (lit " ") (w' :: ws)); [done |].
    by apply andb_prop in IH as [_ ->].
Qed.

(** The pieces [split] cuts out of a line are words, provided the line
    does not run out inside or right behind a run of white space. *)
Lemma split_white_space_from_words in_gap word s :
  Forall (λ c, is_white_space c = false) word →
  (s = [] → word ≠ []) →
  (s ≠ [] → ends_visible s = true) →
  (in_gap = false → word ≠ [] ∨ starts_visible s = true) →
  (in_gap = true → word = []) →
  Forall (λ w, is_word w = true) (split_white_space_from in_gap word s).
Proof.
  assert (∀ word, Forall (λ c, is_white_space c = false) word → word ≠ [] →
                  is_word (reverse word) = true) as Hword.
  { intros wd Hall Hne. unfold is_word.
    destruct (reverse wd) as [|d r] eqn:Hr.
    - apply (f_equal length) in Hr. rewrite length_reverse in Hr. by destruct wd.
    - rewrite <- Hr. apply forallb_forall. intros x Hx.
      apply list_elem_of_In in Hx. rewrite elem_of_reverse in Hx.
      rewrite Forall_forall in Hall. by rewrite (Hall x Hx). }
  revert in_gap word. induction s as [|c s IH]; intros in_gap word Hall Hnil Hend Hgap Hin.
  - simpl. apply Forall_singleton. apply Hword; auto.
  - simpl. specialize (Hend ltac:(done)).
    destruct (is_white_space c) eqn:Hc.
    + assert (s ≠ []) as Hs.
      { intros ->. unfold ends_visible in Hend. simpl in Hend. by rewrite Hc in Hend. }
      assert (Forall (λ w, is_word w = true) (split_white_space_from true [] s)) as Hrest.
      { apply IH; try done.
        intros _. by rewrite <- (ends_visible_cons c s Hs). }
      destruct in_gap.
      * by rewrite (Hin eq_refl).
      * apply Forall_cons. split; [| done]. apply Hword; [done |].
        destruct (Hgap eq_refl) as [?|Hv]; [done |]. simpl in Hv. by rewrite Hc in Hv.
    + apply IH; try done.
      * by apply Forall_cons.
      * intros Hs. by rewrite <- (ends_visible_cons c s Hs).
      * intros _. by left.
Qed.

Lemma split_trimmed_words s :
  trim s ≠ [] → Forall (λ w, is_word w = true) (split_white_space (trim s)).
Proof.
  intros Hne. destruct (trim_shape s) as [?|[Hs He]]; [done |].
  apply split_white_space_from_words; try done. intros _. by right.
Qed.

End command_line.

(** ** Commands and the requests they issue *)

Section commands.

Import MeshTerminal.

Context `{JsRuntime}.

Variable self : jsstring.

Implicit Types (raw p t : jsstring) (st : State) (now : Z).

(** What each branch of [runCommand] is given. *)
Lemma runCommand_cases raw :
  match runCommand raw with
  | Rename p | Connect p | SwitchSession p =>
      ∃ words, Forall (λ w, is_word w = true) words ∧ p = join (lit " ") words
  | Send t => t = trim raw ∧ t ≠ []
  | _ => True
  end.
Proof.
  unfold runCommand. destruct (trim raw) as [|c t] eqn:Ht; [done |].
  pose proof (split_trimmed_words raw) as Hwords. rewrite Ht in Hwords.
  specialize (Hwords ltac:(done)).
  destruct (split_white_space (c :: t)) as [|command rest]; [done |].
  apply Forall_cons in Hwords as [_ Hrest].
  cbv zeta.
  repeat (match goal with |- context [if ?b then _ else _] => destruct b end);
    try done; by exists rest.
Qed.

Lemma runCommand_payload_clean raw p :
  runCommand raw = Rename p ∨ runCommand raw = Connect p ∨ runCommand raw = SwitchSession p →
  ∃ words, Forall (λ w, is_word w = true) words ∧ p = join (lit " ") words ∧ trim p = p.
Proof.
  intros Hrun. pose proof (runCommand_cases raw) as Hc.
  assert (∃ words, Forall (λ w, is_word w = true) words ∧ p = join (lit " ") words)
    as (words & Hwords & ->).
  { destruct Hrun as [E|[E|E]]; by rewrite E in Hc. }
  exists words. split; [done |]. split; [done |].
  by apply clean_trim, join_words_clean.
Qed.


(** A name command with an argument makes the component ask the relay to
    rename its own identity to exactly that argument; for a registered
    identity the relay answers 200 and files the first 48 code units of
    the argument as the display name. *)
Theorem typed_name_is_stored raw p now st (r : User) :
  runCommand raw = Rename p → p ≠ [] → self ≠ [] →
  users st !! self = Some r →
  ∃ body,
    sendRename self p = ([], Some (UserPUT body))
    ∧ (handle now (UserPUT body) st).1
      = Some (Respond 200 (JUser {| uid := self; name := slice0 48 p |}))
    ∧ users (handle now (UserPUT body) st).2 !! self
      = Some {| uid := self; name := slice0 48 p |}.
Proof.
  intros Hrun Hp Hself Hr.
  destruct (runCommand_payload_clean raw p (or_introl Hrun)) as (_ & _ & _ & Htrim).
  exists (UserRoute.mkBody (JsString self) (JsString p)).
  assert (UserRoute.sanitizeName (JsString p) = slice0 48 p) as Hname.
  { unfold UserRoute.sanitizeName. rewrite Htrim. by destruct p. }
  split.
  { unfold sendRename. rewrite Htrim. by destruct p. }
  cbn [handle]. unfold UserRoute.PUT.
  cbn [UserRoute.body_uid UserRoute.body_name string_or_null]. rewrite Hname.
  destruct self as [|x u] eqn:Eself; [done |]. rewrite <- Eself in *.
  unfold renameParticipant. rewrite Hr. cbn [fst snd].
  split; [done |].
  rewrite publish_users, store_identity_users. cbn [uid]. by rewrite lookup_insert_eq.
Qed.

(** A line that starts with no command is sent as a message: the
    component posts the trimmed line to the active session under its own
    id, and when the relay knows the component's identity as a participant
    of that conversation it answers 200 and appends a message by that
    identity whose text is the first 2000 code units of the trimmed
    line. *)
Theorem plain_line_is_delivered raw t (c : Conversation) alias now st :
  runCommand raw = Send t →
  conv_id c ≠ [] → self ≠ [] →
  users st !! self = Some {| uid := self; name := alias |} →
  takes_part self (conv_id c) st = true →
  ∃ body m,
    sendMessage self t (Some c) = ([], Some (MessagePOST body))
    ∧ (handle now (MessagePOST body) st).1 = Some (Respond 200 (JMessage m))
    ∧ msg_conversationId m = conv_id c
    ∧ msg_from m = Some self
    ∧ msg_text m = slice0 2000 (trim raw)
    ∧ messages <$> conversations (handle now (MessagePOST body) st).2 !! conv_id c
      = (λ stored, messages stored ++ [m]) <$> conversations st !! conv_id c.
Proof.
  intros Hrun Hcid Hself Hr Hpart.
  pose proof (runCommand_cases raw) as Hcases. rewrite Hrun in Hcases.
  destruct Hcases as [-> Hne].
  unfold takes_part in Hpart.
  destruct (conversations st !! conv_id c) as [stored|] eqn:Hstored; [| done].
  apply bool_decide_eq_true in Hpart.
  assert (trim (trim raw) ≠ []) as Hne' by (by rewrite trim_idempotent).
  pose proof (trim_slice0_nonblank 1999 (trim raw) Hne') as Hcut.
  pose proof (appendMessage_success st (conv_id c) {| uid := self; name := alias |}
                stored (slice0 2000 (trim (trim raw))) now Hstored Hpart Hcut) as Happ.
  cbv zeta in Happ.
  eexists (MessageRoute.mkBody (JsString (conv_id c)) (JsString self) (JsString (trim raw))), _.
  split.
  { unfold sendMessage. rewrite trim_idempotent. destruct (trim raw); [done |].
    cbn [fmap option_fmap option_map]. by destruct (conv_id c). }
  cbn [handle]. rewrite (message_POST_appends st _ _ _ _ now Hcid Hself Hr Hne'), Happ.
  cbn [fst snd msg_conversationId msg_from msg_text uid].
  split; [reflexivity |]. split; [done |]. split; [done |].
  split; [by rewrite trim_idempotent |].
  match goal with
  | |- context [conversations (publish_all ?us ?e ?s)] =>
      destruct (publish_all_frame us e s) as (_ & -> & _)
  end.
  cbn [conversations with_next_message with_conversations].
  by rewrite lookup_insert_eq.
Qed.

(** A connect command naming another registered identity makes the
    component post its own id and the argument to the relay, which answers
    200 with the conversation it keeps under the canonical key of the
    pair. *)
Theorem connect_command_opens raw p now st (ua ub : User) :
  runCommand raw = Connect p → p ≠ [] → p ≠ self → self ≠ [] →
  users st !! self = Some ua → users st !! p = Some ub →
  ∃ body c,
    (sendConnect self p).2 = Some (ConnectPOST body)
    ∧ body = ConnectRoute.mkBody (JsString self) (JsString p)
    ∧ (handle now (ConnectPOST body) st).1 = Some (Respond 200 (JConversation c))
    ∧ conversations (handle now (ConnectPOST body) st).2 !! conversationKey self p = Some c.
Proof.
  intros Hrun Hp Hne Hself Ha Hb.
  destruct (runCommand_payload_clean raw p (or_intror (or_introl Hrun)))
    as (_ & _ & _ & Htrim).
  destruct (connect_once st self p ua ub now (not_eq_sym Hne) Ha Hb)
    as (c & st' & Hens & _ & Hc & _).
  exists (ConnectRoute.mkBody (JsString self) (JsString p)), c.
  split.
  { unfold sendConnect. rewrite Htrim. destruct p as [|y q] eqn:Ep; [done |].
    by rewrite bool_decide_eq_false_2. }
  split; [done |].
  cbn [handle]. rewrite (connect_POST_ensure st self p now Hself Hp), Hens. done.
Qed.

(** [sendConnect] asks the relay for nothing when the target is blank or
    the component's own id. A request it does issue carries the own id and
    the trimmed target, so the relay never answers it with the missing-id
    error or the error for a conversation with oneself. *)
Theorem sendConnect_never_loopback target (r : Request) now st :
  self ≠ [] →
  (sendConnect self target).2 = Some r →
  r = ConnectPOST (ConnectRoute.mkBody (JsString self) (JsString (trim target)))
  ∧ trim target ≠ [] ∧ trim target ≠ self
  ∧ ∀ o, (handle now r st).1 = Some o →
         o ≠ Respond 400 (JError "fromUid and toUid are required")
         ∧ o ≠ Respond 400 (JError "Cannot open a conversation with yourself").
Proof.
  intros Hself. unfold sendConnect.
  destruct (trim target) as [|y q] eqn:Ht; [done |].
  case_bool_decide as Hpeer; [done |]. cbn [snd]. intros [= <-].
  split; [done |]. split; [done |]. split; [done |].
  intros o. cbn [handle].
  rewrite (connect_POST_ensure st self (y :: q) now Hself ltac:(done)).
  unfold ensureConversation. rewrite decide_False by done.
  destruct (users st !! self) as [ua|]; [| by intros [= <-]].
  destruct (users st !! (y :: q)) as [ub|]; [| by intros [= <-]].
  destruct (conversations st !! conversationKey self (y :: q)); by intros [= <-].
Qed.

(** After a connect answered with a conversation, that conversation is
    the active session, whatever the sessions held before: a message typed
    next is posted to it, trimmed, under the component's own id. *)
Theorem connected_session_is_targeted (c : Conversation) (prev : SessionsIndex) payload :
  conv_id c ≠ [] → trim payload ≠ [] →
  let answer := sendConnect_ok self c prev in
  activeSession answer.1.1 answer.1.2.1 = Some c
  ∧ sendMessage self payload (activeSession answer.1.1 answer.1.2.1)
    = ([], Some (MessagePOST
                   (MessageRoute.mkBody (JsString (conv_id c)) (JsString self)
                      (JsString (trim payload))))).
Proof.
  intros Hcid Hp answer.
  assert (activeSession answer.1.1 answer.1.2.1 = Some c) as ->.
  { unfold answer, sendConnect_ok. cbn [fst snd].
    assert ((upsertSessions self c prev).1 = with_session (conv_id c) c prev) as ->.
    { unfold upsertSessions. by destruct (session (conv_id c) prev). }
    unfold activeSession. destruct (conv_id c) as [|x u] eqn:E; [done |].
    apply session_with_session_eq. }
  split; [done |].
  unfold sendMessage. destruct (trim payload); [done |].
  cbn [fmap option_fmap option_map]. by destruct (conv_id c).
Qed.

End commands.


Lemma typed_name_is_stored_witness :
  ∃ body,
    MeshTerminal.sendRename Scenario.alpha (lit "Ada Lovelace") = ([], Some (UserPUT body))
    ∧ (handle 7 (UserPUT body) Scenario.registered).1
      = Some (Respond 200 (JUser {| uid := Scenario.alpha;
                                    name := slice0 48 (lit "Ada Lovelace") |}))
    ∧ users (handle 7 (UserPUT body) Scenario.registered).2 !! Scenario.alpha
      = Some {| uid := Scenario.alpha; name := slice0 48 (lit "Ada Lovelace") |}.
Proof.
  apply (@typed_name_is_stored ascii_runtime Scenario.alpha
           (lit "  NAME   Ada    Lovelace  ") (lit "Ada Lovelace") 7 Scenario.registered
           {| uid := Scenario.alpha; name := lit "Alpha" |}).
  - vm_compute. reflexivity.
  - vm_compute. discriminate.
  - vm_compute. discriminate.
  - vm_compute. reflexivity.
Defined.

Lemma plain_line_is_delivered_witness :
  let c := {| conv_id := Scenario.channel; participants := ∅; messages := [];
              updatedAt := 3 |} in
  ∃ body m,
    MeshTerminal.sendMessage Scenario.alpha (lit "see   you") (Some c)
    = ([], Some (MessagePOST body))
    ∧ (handle 7 (MessagePOST body) Scenario.chatting).1 = Some (Respond 200 (JMessage m))
    ∧ msg_conversationId m = conv_id c
    ∧ msg_from m = Some Scenario.alpha
    ∧ msg_text m = slice0 2000 (trim (lit "  see   you "))
    ∧ messages <$> conversations (handle 7 (MessagePOST body) Scenario.chatting).2 !! conv_id c
      = (λ stored, messages stored ++ [m]) <$> conversations Scenario.chatting !! conv_id c.
Proof.
  intros c.
  apply (@plain_line_is_delivered ascii_runtime Scenario.alpha (lit "  see   you ")
           (lit "see   you") c (lit "Alpha") 7 Scenario.chatting).
  - vm_compute. reflexivity.
  - vm_compute. discriminate.
  - vm_compute. discriminate.
  - vm_compute. reflexivity.
  - vm_compute. reflexivity.
Defined.

Lemma connect_command_opens_witness :
  ∃ body c,
    (@MeshTerminal.sendConnect ascii_runtime Scenario.alpha Scenario.beta).2
    = Some (ConnectPOST body)
    ∧ body = ConnectRoute.mkBody (JsString Scenario.alpha) (JsString Scenario.beta)
    ∧ (handle 7 (ConnectPOST body) Scenario.registered).1
      = Some (Respond 200 (JConversation c))
    ∧ conversations (handle 7 (ConnectPOST body) Scenario.registered).2
        !! conversationKey Scenario.alpha Scenario.beta = Some c.
Proof.
  apply (@connect_command_opens ascii_runtime Scenario.alpha (lit "Connect   beta")
           Scenario.beta 7 Scenario.registered
           {| uid := Scenario.alpha; name := lit "Alpha" |}
           {| uid := Scenario.beta; name := lit "Beta" |}).
  - vm_compute. reflexivity.
  - vm_compute. discriminate.
  - vm_compute. discriminate.
  - vm_compute. discriminate.
  - vm_compute. reflexivity.
  - vm_compute. reflexivity.
Defined.

Lemma sendConnect_never_loopback_witness :
  let r := Scenario.connect Scenario.alpha Scenario.beta in
  r = ConnectPOST (ConnectRoute.mkBody (JsString Scenario.alpha)
                     (JsString (trim (lit " beta "))))
  ∧ trim (lit " beta ") ≠ [] ∧ trim (lit " beta ") ≠ Scenario.alpha
  ∧ ∀ o, (handle 7 r initial_state).1 = Some o →
         o ≠ Respond 400 (JError "fromUid and toUid are required")
         ∧ o ≠ Respond 400 (JError "Cannot open a conversation with yourself").
Proof.
  intros r.
  apply (@sendConnect_never_loopback ascii_runtime Scenario.alpha (lit " beta ") r 7
           initial_state).
  - vm_compute. discriminate.
  - vm_compute. reflexivity.
Defined.

Lemma connected_session_is_targeted_witness :
  let c := {| conv_id := Scenario.channel; participants := ∅; messages := [];
              updatedAt := 3 |} in
  let answer := @MeshTerminal.sendConnect_ok ascii_runtime Scenario.alpha c [] in
  MeshTerminal.activeSession answer.1.1 answer.1.2.1 = Some c
  ∧ MeshTerminal.sendMessage Scenario.alpha (lit " hi ")
      (MeshTerminal.activeSession answer.1.1 answer.1.2.1)
    = ([], Some (MessagePOST
                   (MessageRoute.mkBody (JsString (conv_id c)) (JsString Scenario.alpha)
                      (JsString (trim (lit " hi ")))))).
Proof.
  intros c.
  apply (@connected_session_is_targeted ascii_runtime Scenario.alpha c [] (lit " hi ")).
  - vm_compute. discriminate.
  - vm_compute. discriminate.
Defined.
